(** * securekit-go: streaming AES-CTR + HMAC, suite dispatcher, file
      helpers and the rename ledger, embedded from the Go sources.

    Layout of the development:
    - [Bytes], errors and the [run] monad (returned / panicked / budget);
    - the Go runtime pieces the sources lean on ([io.Reader], [io.Writer],
      [io.ReadFull], [bufio.Reader], [io.MultiWriter], slices);
    - kit/aes/ctr.go ([AESCTREnc], [AESCTRDec]);
    - kit/suite/suit.go ([BlockDecrypt], [StreamEncrypt], [StreamDecrypt]);
    - the file-level operations ([RSAFileEncrypt], ...) and kit/rnm.go;
    - the theorems. *)

From Stdlib Require Import ZArith Lia Bool.
From Stdlib Require Import Strings.Byte Strings.Ascii Strings.String.
From stdpp Require Import base option list gmap strings.

Local Open Scope nat_scope.

(** ** Bytes *)

Abbreviation byte := Byte.byte.
Abbreviation bytes := (list Byte.byte).

#[global] Instance byte_eq_dec : EqDecision byte := Byte.byte_eq_dec.

Definition bits8 : Type :=
  (bool * (bool * (bool * (bool * (bool * (bool * (bool * bool))))))).

Definition xor8 (a b : bits8) : bits8 :=
  let '(a0, (a1, (a2, (a3, (a4, (a5, (a6, a7))))))) := a in
  let '(b0, (b1, (b2, (b3, (b4, (b5, (b6, b7))))))) := b in
  (xorb a0 b0, (xorb a1 b1, (xorb a2 b2, (xorb a3 b3,
   (xorb a4 b4, (xorb a5 b5, (xorb a6 b6, xorb a7 b7))))))).

(** Go's [^] on two [byte] values. *)
Definition byte_xor (a b : byte) : byte :=
  Byte.of_bits (xor8 (Byte.to_bits a) (Byte.to_bits b)).

(** [make([]byte, n)]: a zeroed slice. *)
Definition make (n : nat) : bytes := replicate n x00.

(** [copy(dst, src)]: overwrites the first [min (len dst) (len src)]
    elements of [dst]; the result has the length of [dst]. *)
Definition copy (dst src : bytes) : bytes :=
  take (length dst) src ++ drop (length src) dst.

(** Go slice expressions [s[lo:hi]], [s[lo:]] and [s[:hi]] with integer
    operands; [None] is the run-time panic "slice bounds out of range". *)
Definition slice (s : bytes) (lo hi : Z) : option bytes :=
  if decide (0 ≤ lo ∧ lo ≤ hi ∧ hi ≤ Z.of_nat (length s))%Z
  then Some (take (Z.to_nat hi - Z.to_nat lo) (drop (Z.to_nat lo) s))
  else None.

Definition slice_from (s : bytes) (lo : Z) : option bytes :=
  slice s lo (Z.of_nat (length s)).

Definition slice_to (s : bytes) (hi : Z) : option bytes :=
  slice s 0 hi.

(** ** Errors and outcomes *)

Inductive error : Type :=
| EOF                      (* io.EOF *)
| ErrUnexpectedEOF         (* io.ErrUnexpectedEOF *)
| ErrNoProgress            (* io.ErrNoProgress *)
| ErrShortWrite            (* io.ErrShortWrite *)
| ErrBufferFull            (* bufio.ErrBufferFull *)
| KeySizeError (n : nat)   (* aes.KeySizeError *)
| ErrNew (msg : string)    (* errors.New(msg) *)
| ErrIO (msg : string).    (* an error of the operating system or a library *)

#[global] Instance error_eq_dec : EqDecision error.
Proof. solve_decision. Defined.

(** ctr.go: [var ErrInvalidHMAC = errors.New("invalid HMAC")]. *)
Definition ErrInvalidHMAC : error := ErrNew "invalid HMAC".
(** ctr.go, line 111: [errors.New("not enough left")]. *)
Definition ErrNotEnoughLeft : error := ErrNew "not enough left".

(** What a call does: it returns, it panics, or the step budget of the
    model is used up before it returns. *)
Inductive run (A : Type) : Type :=
| Ret (a : A)
| Panic (msg : string)
| OutOfFuel.
Arguments Ret {A} a.
Arguments Panic {A} msg.
Arguments OutOfFuel {A}.

#[global] Instance run_ret : MRet run := fun A a => Ret a.

#[global] Instance run_bind : MBind run := fun A B k m =>
  match m with
  | Ret a => k a
  | Panic msg => Panic msg
  | OutOfFuel => OutOfFuel
  end.

Definition slice_bounds : string := "slice bounds out of range".

Definition of_slice {A : Type} (o : option A) : run A :=
  match o with
  | Some a => Ret a
  | None => Panic slice_bounds
  end.

(** ** io.Reader

    A reader is the script of what its successive [Read] calls would
    return when offered an unbounded buffer: a piece of data and the error
    returned with it ([None] is [nil]).  A call with a smaller buffer takes
    a prefix of the piece and leaves the rest, with its error, for the next
    call.  A script that is used up answers [0, io.EOF]. *)
Definition Reader : Type := list (bytes * option error).

Definition Read (n : nat) (r : Reader) : bytes * option error * Reader :=
  match r with
  | [] => ([], Some EOF, [])
  | (d, e) :: rest =>
      if decide (length d ≤ n) then (d, e, rest)
      else (take n d, None, (drop n d, e) :: rest)
  end.

(** The reader of an in-memory byte string ([bytes.Reader], a regular
    file): everything that fits, and [io.EOF] only once it is empty. *)
Definition bytes_reader (s : bytes) : Reader :=
  match s with
  | [] => []
  | _ => [(s, None)]
  end.

(** Bytes still to be delivered plus the number of scripted calls: the
    measure that bounds every read loop below. *)
Definition script_size (r : Reader) : nat :=
  length r + sum_list (map (fun ev => length (fst ev)) r).

(** ** io.Writer

    A sink that remembers what was written.  [w_room] is the number of
    bytes it still accepts ([None]: no limit, as [bytes.Buffer]); a write
    that does not fit stores what fits and returns an error. *)
Record Writer : Type := mkWriter { w_data : bytes; w_room : option nat }.

Definition ErrNoSpace : error := ErrIO "no space left on device".

Definition Write (p : bytes) (w : Writer) : nat * option error * Writer :=
  match w_room w with
  | None => (length p, None, mkWriter (w_data w ++ p) None)
  | Some c =>
      if decide (length p ≤ c)
      then (length p, None, mkWriter (w_data w ++ p) (Some (c - length p)))
      else (c, Some ErrNoSpace, mkWriter (w_data w ++ take c p) (Some 0))
  end.

Definition new_buffer : Writer := mkWriter [] None.

(** ** io.ReadFull (io.ReadAtLeast with [min = len(buf)]) *)

Fixpoint read_at_least (fuel : nat) (r : Reader) (size : nat) (got : bytes)
  : run (bytes * option error * Reader) :=
  if decide (length got < size) then
    match fuel with
    | 0 => OutOfFuel
    | S fuel' =>
        let '(d, e, r') := Read (size - length got) r in
        match e with
        | None => read_at_least fuel' r' size (got ++ d)
        | Some _ => Ret (got ++ d, e, r')
        end
    end
  else Ret (got, None, r).

Definition ReadFull (fuel : nat) (r : Reader) (size : nat)
  : run (bytes * option error * Reader) :=
  '(got, e, r') ← read_at_least fuel r size [];
   let e' :=
     if decide (size ≤ length got) then None
     else if decide (0 < length got ∧ e = Some EOF) then Some ErrUnexpectedEOF
     else e in
   Ret (got, e', r').

(** ** bufio.Reader

    [br_buf] is the buffered, unread part [buf[r:w]]; [br_err] the error
    remembered from the underlying reader. *)
Record BufReader : Type :=
  mkBuf { br_size : nat; br_buf : bytes; br_rd : Reader; br_err : option error }.

Definition NewReaderSize (rd : Reader) (size : nat) : BufReader :=
  mkBuf (Nat.max size 16) [] rd None.

Definition maxConsecutiveEmptyReads : nat := 100.

Fixpoint fill_tries (i : nat) (b : BufReader) : BufReader :=
  match i with
  | 0 => mkBuf (br_size b) (br_buf b) (br_rd b) (Some ErrNoProgress)
  | S i' =>
      let '(d, e, rd') := Read (br_size b - length (br_buf b)) (br_rd b) in
      let b' := mkBuf (br_size b) (br_buf b ++ d) rd' (br_err b) in
      match e with
      | Some _ => mkBuf (br_size b) (br_buf b ++ d) rd' e
      | None => if decide (0 < length d) then b' else fill_tries i' b'
      end
  end.

Definition fill (b : BufReader) : BufReader :=
  fill_tries maxConsecutiveEmptyReads b.

Definition Buffered (b : BufReader) : nat := length (br_buf b).

Fixpoint peek_fill (fuel : nat) (n : nat) (b : BufReader) : run BufReader :=
  if decide (Buffered b < n ∧ Buffered b < br_size b ∧ br_err b = None) then
    match fuel with
    | 0 => OutOfFuel
    | S fuel' => peek_fill fuel' n (fill b)
    end
  else Ret b.

(** [Peek(n)]: the next [n] bytes without advancing; fewer bytes come
    with the error that explains why. *)
Definition Peek (fuel : nat) (n : nat) (b : BufReader)
  : run (bytes * option error * BufReader) :=
  b1 ← peek_fill fuel n b;
   if decide (br_size b1 < n) then Ret (br_buf b1, Some ErrBufferFull, b1)
   else if decide (Buffered b1 < n) then
     (* err = b.readErr(), which clears the remembered error *)
     let e := match br_err b1 with Some e => e | None => ErrBufferFull end in
     Ret (br_buf b1, Some e, mkBuf (br_size b1) (br_buf b1) (br_rd b1) None)
   else Ret (take n (br_buf b1), None, b1).

(** [Read(p)] of the buffered reader, [n] being [len(p)].  With data in
    the buffer it copies out of the buffer and advances; the underlying
    reader is consulted at most once, and only when the buffer is empty.
    (In ctr.go, [p] is a slice of the buffer itself: in the branch that
    copies buffered data the copy is of the buffer onto itself.) *)
Definition BufRead (n : nat) (b : BufReader) : bytes * option error * BufReader :=
  if decide (n = 0) then
    if decide (0 < Buffered b) then ([], None, b)
    else ([], br_err b, mkBuf (br_size b) (br_buf b) (br_rd b) None)
  else if decide (Buffered b = 0) then
    match br_err b with
    | Some e => ([], Some e, mkBuf (br_size b) [] (br_rd b) None)
    | None =>
        if decide (br_size b ≤ n) then
          let '(d, e, rd') := Read n (br_rd b) in
          (d, e, mkBuf (br_size b) [] rd' None)
        else
          let '(d, e, rd') := Read (br_size b) (br_rd b) in
          if decide (length d = 0) then ([], e, mkBuf (br_size b) [] rd' None)
          else (take n d, None, mkBuf (br_size b) (drop n d) rd' e)
    end
  else (take n (br_buf b), None,
        mkBuf (br_size b) (drop n (br_buf b)) (br_rd b) (br_err b)).

(** ** The cryptographic library

    crypto/aes, crypto/cipher and crypto/hmac are not part of the
    repository; the sources use them through [cipher.Stream] and
    [hash.Hash].  [ctr_keystream key iv i] is byte [i] of the AES-CTR
    keystream, [hmac_sha512 key msg] the HMAC-SHA512 digest, whose length
    is [sha512.Size]. *)
Class Primitives : Type := {
  ctr_keystream : bytes → bytes → nat → byte;
  hmac_sha512 : bytes → bytes → bytes;
  hmac_sha512_size : ∀ k m, length (hmac_sha512 k m) = 64
}.

(** [aes.NewCipher]: the key must be 16, 24 or 32 bytes long. *)
Record Block : Type := mkBlock { blk_key : bytes }.

Definition BlockSize : nat := 16.

Definition NewCipher (key : bytes) : error + Block :=
  let k := length key in
  if decide (k = 16 ∨ k = 24 ∨ k = 32) then inr (mkBlock key)
  else inl (KeySizeError k).

(** [cipher.Stream] in CTR mode: the keystream and the position in it. *)
Record Stream : Type := mkStream { st_ks : nat → byte; st_pos : nat }.

Definition NewCTR `{Primitives} (block : Block) (iv : bytes) : run Stream :=
  if decide (length iv = BlockSize)
  then Ret (mkStream (ctr_keystream (blk_key block) iv) 0)
  else Panic "cipher.NewCTR: IV length must equal block size".

Fixpoint xor_stream (ks : nat → byte) (pos : nat) (src : bytes) : bytes :=
  match src with
  | [] => []
  | x :: xs => byte_xor x (ks pos) :: xor_stream ks (S pos) xs
  end.

(** [XORKeyStream(dst, src)]: returns the new contents of [dst]. *)
Definition XORKeyStream (s : Stream) (dst src : bytes) : run (bytes * Stream) :=
  if decide (length dst < length src)
  then Panic "crypto/cipher: output smaller than input"
  else Ret (copy dst (xor_stream (st_ks s) (st_pos s) src),
            mkStream (st_ks s) (st_pos s + length src)).

(** [hash.Hash] of [hmac.New(sha512.New, key)]: the key and what has been
    written so far. *)
Record Hmac : Type := mkHmac { h_key : bytes; h_data : bytes }.

Definition hmac_New (key : bytes) : Hmac := mkHmac key [].
Definition hmac_Write (p : bytes) (h : Hmac) : Hmac :=
  mkHmac (h_key h) (h_data h ++ p).
Definition hmac_Sum `{Primitives} (h : Hmac) : bytes :=
  hmac_sha512 (h_key h) (h_data h).
(** [hmac.Equal]: constant-time comparison, true exactly on equal slices. *)
Definition hmac_Equal (a b : bytes) : bool := bool_decide (a = b).

(** [io.MultiWriter(out, hmac).Write(p)]: the writers in order, stopping
    at the first error or short write. *)
Definition MultiWrite (p : bytes) (out : Writer) (h : Hmac)
  : nat * option error * Writer * Hmac :=
  let '(n, e, out') := Write p out in
  match e with
  | Some _ => (n, e, out', h)
  | None =>
      if decide (n ≠ length p) then (n, Some ErrShortWrite, out', h)
      else (length p, None, out', hmac_Write p h)
  end.

(** ** kit/aes/ctr.go *)

Definition BUFFER_SIZE : nat := 16 * 1024.
Definition IV_SIZE : nat := 16.
Definition V1 : byte := x01.
(** [sha512.Size] *)
Definition HMAC_SIZE : nat := 64.

(** [err != nil && err != io.EOF] *)
Definition fatal (e : option error) : bool :=
  match e with
  | None => false
  | Some EOF => false
  | Some _ => true
  end.

Definition is_eof (e : option error) : bool := bool_decide (e = Some EOF).

(** The read loop of [AESCTREnc] (lines 46-61).  The first component of
    the result is [Some e] when the loop leaves the function with
    [return e] and [None] when it ends with [break]. *)
Fixpoint enc_loop (fuel : nat) (src : Reader) (ctr : Stream)
    (out : Writer) (h : Hmac) : run (option error * Writer * Hmac) :=
  match fuel with
  | 0 => OutOfFuel
  | S fuel' =>
      let '(d, err, src) := Read BUFFER_SIZE src in
      if fatal err then Ret (err, out, h)
      else
        '(ctr, out, h) ←
          (if decide (length d ≠ 0) then
             '(outBuf, ctr) ← XORKeyStream ctr (make (length d)) d;
             let '(_, _, out, h) := MultiWrite outBuf out h in
             Ret (ctr, out, h)
           else Ret (ctr, out, h));
        if is_eof err then Ret (None, out, h)
        else enc_loop fuel' src ctr out h
  end.

(** [AESCTREnc(in, out, keyAes, keyHmac)].  [rnd] is [rand.Reader], from
    which [rand.Read] fills the IV; the theorems are about a source that
    delivers its 16 bytes.  The result is the returned error and the
    final state of [out]. *)
Definition AESCTREnc `{Primitives} (fuel : nat) (rnd src : Reader)
    (out : Writer) (keyAes keyHmac : bytes) : run (option error * Writer) :=
  '(got, err, _) ← ReadFull fuel rnd IV_SIZE;
  let iv := copy (make IV_SIZE) got in
  match err with
  | Some _ => Ret (err, out)
  | None =>
      match NewCipher keyAes with
      | inl e => Ret (Some e, out)
      | inr aes =>
          ctr ← NewCTR aes iv;
          let hmac := hmac_New keyHmac in
          let '(_, _, out) := Write [V1] out in
          let '(_, _, out, hmac) := MultiWrite iv out hmac in
          '(err, out, hmac) ← enc_loop fuel src ctr out hmac;
          match err with
          | Some _ => Ret (err, out)
          | None =>
              let '(_, _, out) := Write (hmac_Sum hmac) out in
              Ret (None, out)
          end
      end
  end.

(** The peek loop of [AESCTRDec] (lines 98-137); the first component as
    in [enc_loop], the second is [mac]. *)
Fixpoint dec_loop (fuel : nat) (buf : BufReader) (ctr : Stream) (h : Hmac)
    (mac : bytes) (w : Writer) : run (option error * bytes * Hmac * Writer) :=
  match fuel with
  | 0 => OutOfFuel
  | S fuel' =>
      '(b, err, buf) ← Peek fuel' BUFFER_SIZE buf;
      if fatal err then Ret (err, mac, h, w)
      else
        let limit := (Z.of_nat (length b) - Z.of_nat HMAC_SIZE)%Z in
        let left := Buffered buf in
        if is_eof err && bool_decide (left < HMAC_SIZE)
        then Ret (Some ErrNotEnoughLeft, mac, h, w)
        else
          mac ← (if is_eof err then
                   tail ← of_slice (slice b (Z.of_nat left - Z.of_nat HMAC_SIZE)
                                            (Z.of_nat left));
                   Ret (copy mac tail)
                 else Ret mac);
          if is_eof err && bool_decide (left = HMAC_SIZE)
          then Ret (None, mac, h, w)
          else
            p ← of_slice (slice_to b limit);
            let h := hmac_Write p h in
            let outBuf := make (Z.to_nat limit) in
            let '(_, _, buf) := BufRead (length p) buf in
            '(outBuf, ctr) ← XORKeyStream ctr outBuf p;
            let '(_, _, w) := Write outBuf w in
            if is_eof err then Ret (None, mac, h, w)
            else dec_loop fuel' buf ctr h mac w
  end.

(** [AESCTRDec(in, out, keyAes, keyHmac)]. *)
Definition AESCTRDec `{Primitives} (fuel : nat) (src : Reader)
    (out : Writer) (keyAes keyHmac : bytes) : run (option error * Writer) :=
  (* binary.Read(in, binary.LittleEndian, &version): one byte *)
  '(version, err, src) ← ReadFull fuel src 1;
  match err with
  | Some _ => Ret (err, out)
  | None =>
      '(got, err, src) ← ReadFull fuel src IV_SIZE;
      let iv := copy (make IV_SIZE) got in
      match err with
      | Some _ => Ret (err, out)
      | None =>
          match NewCipher keyAes with
          | inl e => Ret (Some e, out)
          | inr aes =>
              ctr ← NewCTR aes iv;
              let h := hmac_Write iv (hmac_New keyHmac) in
              let mac := make HMAC_SIZE in
              let buf := NewReaderSize src BUFFER_SIZE in
              '(err, mac, h, w) ← dec_loop fuel buf ctr h mac out;
              match err with
              | Some _ => Ret (err, w)
              | None =>
                  if negb (hmac_Equal mac (hmac_Sum h))
                  then Ret (Some ErrInvalidHMAC, w)
                  else Ret (None, w)
              end
          end
      end
  end.

(** *** A small instance of the library, for running the model *)

Definition toy_keystream (key iv : bytes) (i : nat) : byte :=
  byte_xor (nth (i `mod` 16) iv x00) (nth (i `mod` 7) key x33).

Fixpoint toy_mix (acc : byte) (m : bytes) : byte :=
  match m with
  | [] => acc
  | x :: m' => toy_mix (byte_xor (byte_xor acc x) x5a) m'
  end.

Definition toy_hmac (key m : bytes) : bytes :=
  replicate 64 (toy_mix (toy_mix x00 key) m).

#[global] Program Instance toy_primitives : Primitives :=
  {| ctr_keystream := toy_keystream; hmac_sha512 := toy_hmac |}.
Next Obligation. intros. apply length_replicate. Qed.

(** ** kit/suite/suit.go *)

Module Suite.

(** The packages behind the dispatcher (kit/key, kit/hash, kit/suite/aes,
    kit/suite/rc4) are not among the sources; they enter through this
    interface.  [DeriveKey rnd passphrase salt n] returns the key, the salt
    it used and an error; with [salt = None] (Go's [nil]) it draws a fresh
    salt from [rnd], which is not consulted otherwise. *)
Class Lib : Type := {
  SaltLen : nat;
  DeriveKey : bytes → bytes → option bytes → nat → bytes * bytes * option error;
  AESGCMEncrypt : bytes → bytes → bytes → error + bytes;
  AESGCMDecrypt : bytes → bytes → bytes → error + bytes;
  AESCTREncrypt : Reader → Writer → bytes → option error * Reader * Writer;
  AESCTRDecrypt : Reader → Writer → bytes → option error * Reader * Writer;
  RC4KeyStream : Reader → Writer → bytes → option error * Reader * Writer;
  SHA256 : bytes → bytes;
  SHA256_size : ∀ m, length (SHA256 m) = 32
}.

Definition Algorithm : Type := string.

Definition RC4 : Algorithm := "RC4".
Definition RSA : Algorithm := "RSA".
Definition Aes256Gcm : Algorithm := "AES-256-GCM".
Definition Aes256Ctr : Algorithm := "AES-256-CTR".

Definition algoErr : error := ErrNew "unsupported algorithm".
Definition ErrWrongPassphrase : error := ErrNew "wrong passphrase".

(** [sha256.Size] *)
Definition sha256_Size : nat := 32.

Section Dispatch.
Context `{Lib}.

Definition BlockEncrypt (rnd plaintext passphrase : bytes)
    (algorithm : Algorithm) : run (option bytes * option error) :=
  if decide (algorithm = Aes256Gcm) then
    let '(k, salt, _) := DeriveKey rnd passphrase None 32 in
    match AESGCMEncrypt plaintext k salt with
    | inl e => Ret (None, Some e)
    | inr ciphertext => Ret (Some (ciphertext ++ salt), None)
    end
  else Ret (None, Some algoErr).

Definition BlockDecrypt (ciphertext passphrase : bytes)
    (algorithm : Algorithm) : run (option bytes * option error) :=
  if decide (algorithm = Aes256Gcm) then
    let cut := (Z.of_nat (length ciphertext) - Z.of_nat SaltLen)%Z in
    salt ← of_slice (slice_from ciphertext cut);
    let '(k, _, _) := DeriveKey [] passphrase (Some salt) 32 in
    body ← of_slice (slice_to ciphertext cut);
    match AESGCMDecrypt body k salt with
    | inl e => Ret (None, Some e)
    | inr plaintext => Ret (Some plaintext, None)
    end
  else Ret (None, Some algoErr).

Definition StreamEncrypt (rnd : bytes) (src : Reader) (dest : Writer)
    (passphrase : bytes) (algorithm : Algorithm)
    : option error * Reader * Writer :=
  if decide (algorithm = Aes256Ctr) then
    let '(k, salt, _) := DeriveKey rnd passphrase None 32 in
    let '(_, err, dest) := Write salt dest in
    match err with
    | Some _ => (err, src, dest)
    | None => AESCTREncrypt src dest k
    end
  else if decide (algorithm = RC4) then
    let tag := SHA256 passphrase in
    let '(_, err, dest) := Write tag dest in
    match err with
    | Some _ => (err, src, dest)
    | None => RC4KeyStream src dest passphrase
    end
  else (Some algoErr, src, dest).

Definition StreamDecrypt (src : Reader) (dest : Writer)
    (passphrase : bytes) (algorithm : Algorithm)
    : option error * Reader * Writer :=
  if decide (algorithm = Aes256Ctr) then
    let '(d, err, src) := Read SaltLen src in
    let salt := copy (make SaltLen) d in
    match err with
    | Some _ => (err, src, dest)
    | None =>
        let '(k, _, _) := DeriveKey [] passphrase (Some salt) 32 in
        AESCTRDecrypt src dest k
    end
  else if decide (algorithm = RC4) then
    let '(d, err, src) := Read sha256_Size src in
    let tag := copy (make sha256_Size) d in
    match err with
    | Some _ => (err, src, dest)
    | None =>
        if negb (bool_decide (SHA256 passphrase = tag))
        then (Some ErrWrongPassphrase, src, dest)
        else RC4KeyStream src dest passphrase
    end
  else (Some algoErr, src, dest).
End Dispatch.

End Suite.

(** ** Strings and paths *)

Definition sep : ascii := "/"%char.

Fixpoint drop_while {A : Type} (f : A → bool) (l : list A) : list A :=
  match l with
  | [] => []
  | x :: l' => if f x then drop_while f l' else l
  end.

Fixpoint take_while {A : Type} (f : A → bool) (l : list A) : list A :=
  match l with
  | [] => []
  | x :: l' => if f x then x :: take_while f l' else []
  end.

Definition is_sep (c : ascii) : bool := bool_decide (c = sep).

(** [strings.HasPrefix(s, prefix)] and [strings.TrimSuffix(s, suffix)]. *)
Definition HasPrefix (s prefix : string) : bool := String.prefix prefix s.

Definition TrimSuffix (s suffix : string) : string :=
  let n := String.length s in
  let k := String.length suffix in
  if decide (k ≤ n ∧ String.substring (n - k) k s = suffix)
  then String.substring 0 (n - k) s
  else s.

(** [path.Ext]: from the last dot of the last element, or empty. *)
Fixpoint ext_scan (l acc : list ascii) : list ascii :=
  match l with
  | [] => []
  | c :: l' =>
      if is_sep c then []
      else if bool_decide (c = "."%char) then c :: acc
      else ext_scan l' (c :: acc)
  end.

Definition Ext (path : string) : string :=
  string_of_list_ascii (ext_scan (rev (list_ascii_of_string path)) []).

Module Path.
(** kit/path/path.go.  [Name] is [filepath.Base] on a system whose
    separator is the slash. *)
Definition Name (path : string) : string :=
  if decide (path = EmptyString) then "."
  else
    let l := drop_while is_sep (rev (list_ascii_of_string path)) in
    let last := rev (take_while (fun c => negb (is_sep c)) l) in
    match last with
    | [] => String sep EmptyString
    | _ => string_of_list_ascii last
    end.

(** [path[0 : strings.LastIndex(path, Separator)+1]] *)
Definition BasePath (path : string) : string :=
  string_of_list_ascii
    (rev (drop_while (fun c => negb (is_sep c))
                     (rev (list_ascii_of_string path)))).
End Path.

(** ** The file system and the key-value store *)

Abbreviation FS := (gmap string bytes).

Definition ErrNotExist : error := ErrIO "no such file or directory".

(** [os.Open] / [ioutil.ReadFile]: the contents, or an error. *)
Definition os_Open (fs : FS) (name : string) : error + bytes :=
  match fs !! name with
  | Some c => inr c
  | None => inl ErrNotExist
  end.

Definition ErrIsDir : error := ErrIO "is a directory".

(** What follows the last separator of a path. *)
Definition last_elem (name : string) : string :=
  string_of_list_ascii
    (rev (take_while (fun c => negb (is_sep c))
                     (rev (list_ascii_of_string name)))).

(** A path whose last element is empty, ["."] or [".."] names a directory
    (or, when the path is empty, nothing): no file can be created under
    it. *)
Definition names_file (name : string) : bool :=
  negb (bool_decide (last_elem name = ""%string)
        || bool_decide (last_elem name = "."%string)
        || bool_decide (last_elem name = ".."%string)).

(** [os.Create]: the file exists and is empty afterwards.  It fails on the
    empty name and on a name that can only be a directory's.  The
    directories are those of the names in the file system: [os.Create] is
    called here next to a file that was just opened, so the directory of
    the new file exists.  Failures that depend on what else the system
    holds (permissions, a directory under the very name) are outside the
    file system as it is modelled. *)
Definition os_Create (fs : FS) (name : string) : error + FS :=
  if decide (name = ""%string) then inl ErrNotExist
  else if names_file name then inr (<[name := []]> fs)
  else inl ErrIsDir.

Definition os_Remove (fs : FS) (name : string) : FS := delete name fs.

Definition os_Rename (fs : FS) (old new : string) : option error * FS :=
  match fs !! old with
  | Some c => (None, <[new := c]> (delete old fs))
  | None => (Some ErrNotExist, fs)
  end.

(** [f.Write(p)] on the file called [name]. *)
Definition file_Write (fs : FS) (name : string) (p : bytes) : FS :=
  alter (fun c => c ++ p) name fs.

(** The open destination as an [io.Writer], and back. *)
Definition file_writer (fs : FS) (name : string) : Writer :=
  mkWriter (default [] (fs !! name)) None.

Definition file_store (fs : FS) (name : string) (w : Writer) : FS :=
  <[name := w_data w]> fs.

(** [binary.BigEndian.PutUint64] and [binary.BigEndian.Uint64]. *)
Definition byte_of_N (v : N) : byte := default x00 (Byte.of_N v).

Fixpoint be_put (k : nat) (v : N) : bytes :=
  match k with
  | 0 => []
  | S k' => be_put k' (v / 256)%N ++ [byte_of_N (v mod 256)%N]
  end.

Definition PutUint64 (v : N) : bytes := be_put 8 v.

Definition Uint64 (b : bytes) : N :=
  foldl (fun acc x => (acc * 256 + Byte.to_N x)%N) 0%N (take 8 b).

(** ** The file-level operations (package kit) *)

Module Kit.

(** What package kit takes from packages that are not among the sources:
    kit/suite ([StreamEnc], [StreamDec]), kit/suite/rsa, kit/aes
    ([DeriveKey], [GCMEncrypt], [GCMDecrypt]), its own [SHA256],
    [SaltLen], [KeyLen], and encoding/base64. *)
Class Lib : Type := {
  SHA256 : bytes → bytes;
  StreamEnc : Reader → Writer → bytes → Suite.Algorithm
              → option error * Reader * Writer;
  StreamDec : Reader → Writer → bytes → Suite.Algorithm
              → option error * Reader * Writer;
  RSAEncrypt : bytes → bytes → error + bytes;
  RSADecrypt : bytes → bytes → error + bytes;
  SaltLen : nat;
  KeyLen : nat;
  DeriveKey : bytes → bytes → option bytes → nat → bytes * bytes * option error;
  GCMEncrypt : bytes → bytes → bytes → error + bytes;
  GCMDecrypt : bytes → bytes → bytes → error + bytes;
  base64_EncodeToString : bytes → string;
  base64_DecodeString : string → error + bytes
}.

Definition pSizeLen : nat := 8.
Definition sktExt : string := ".skt".
Definition aesAlgo : Suite.Algorithm := Suite.Aes256Ctr.

Definition SKTAESVersion : bytes := [x53; x4b; x54; x00; x02].
Definition SKTRSAVersion : bytes := [x53; x4b; x54; x01; x02].
Definition SKTRC4Version : bytes := [x53; x4b; x54; x02; x01].

Definition ErrVersionMismatch : error := ErrNew "version mismatch error".
Definition ErrWrongPassphrase : error := ErrNew "wrong passphrase".

(** An open source file: its name and what is left to read. *)
Record File : Type := mkFile { f_name : string; f_rd : Reader }.

(** [p := make([]byte, n); f.Read(p)]: the slice read and the file. *)
Definition file_Read (f : File) (n : nat) : bytes * File :=
  let '(d, _, rd) := Read n (f_rd f) in
  (copy (make n) d, mkFile (f_name f) rd).

Definition versionCheck (src : File) (versionRequirement : bytes)
  : option error * File :=
  let '(version, src) := file_Read src (length versionRequirement) in
  if negb (bool_decide (version = versionRequirement))
  then (Some ErrVersionMismatch, src)
  else (None, src).

(** [beforeEncrypt]: the source, the name of the created destination and
    the file system, or the error of [os.Open] or [os.Create]. *)
Definition beforeEncrypt (fs : FS) (filepath : string)
  : error + (File * string * FS) :=
  match os_Open fs filepath with
  | inl e => inl e
  | inr c =>
      let dest := (filepath +:+ sktExt)%string in
      match os_Create fs dest with
      | inl e => inl e
      | inr fs => inr (mkFile filepath (bytes_reader c), dest, fs)
      end
  end.

Definition beforeDecrypt (fs : FS) (filepath : string) (version : bytes)
  : error + (File * string * FS) :=
  match os_Open fs filepath with
  | inl e => inl e
  | inr c =>
      match versionCheck (mkFile filepath (bytes_reader c)) version with
      | (Some e, _) => inl e
      | (None, src) =>
          let dest := TrimSuffix filepath sktExt in
          match os_Create fs dest with
          | inl e => inl e
          | inr fs => inr (src, dest, fs)
          end
      end
  end.

(** [make([]byte, n)] for a [uint64] [n]: the run-time panics when [n]
    is negative as an [int] or above its allocation limit, which is 2^48
    bytes on a 64-bit platform; an allocation within the limit is taken
    to succeed. *)
Definition maxAlloc : N := (2 ^ 48)%N.

Definition makeslice_len : string := "makeslice: len out of range".

Definition make_len (n : N) : run nat :=
  if decide (n ≤ maxAlloc)%N then Ret (N.to_nat n) else Panic makeslice_len.

(** [deleteFile(file, delete)] *)
Definition deleteFile (fs : FS) (name : string) (delete : bool) : FS :=
  if delete then os_Remove fs name else fs.

Section Files.
Context `{Lib}.

(** In each operation the destination is handed to the stream transform
    as an [io.Writer]; [file_store] puts what was written into the file
    system before [closeFile]. *)
Definition RC4FileEncrypt (fs : FS) (filepath : string) (passphrase : bytes)
    (delete : bool) : option error * FS :=
  if decide (Ext filepath = sktExt) then (None, fs)
  else
    match beforeEncrypt fs filepath with
    | inl e => (Some e, fs)
    | inr (src, dest, fs) =>
        let fs := file_Write fs dest SKTRC4Version in
        let fs := file_Write fs dest (SHA256 passphrase) in
        let '(err, _, w) :=
          StreamEnc (f_rd src) (file_writer fs dest) passphrase Suite.RC4 in
        let fs := file_store fs dest w in
        match err with
        | Some _ => (err, os_Remove fs dest)
        | None => (None, deleteFile fs (f_name src) delete)
        end
    end.

Definition RC4FileDecrypt (fs : FS) (filepath : string) (passphrase : bytes)
    (delete : bool) : option error * FS :=
  if decide (Ext filepath ≠ sktExt) then (None, fs)
  else
    match beforeDecrypt fs filepath SKTRC4Version with
    | inl e => (Some e, fs)
    | inr (src, dest, fs) =>
        let '(hashSum, src) := file_Read src Suite.sha256_Size in
        if negb (bool_decide (SHA256 passphrase = hashSum))
        then (Some ErrWrongPassphrase, os_Remove fs dest)
        else
          let '(err, _, w) :=
            StreamDec (f_rd src) (file_writer fs dest) passphrase Suite.RC4 in
          let fs := file_store fs dest w in
          match err with
          | Some _ => (err, os_Remove fs dest)
          | None => (None, deleteFile fs (f_name src) delete)
          end
    end.

Definition AESFileEncrypt (fs : FS) (filepath : string) (passphrase : bytes)
    (delete : bool) : option error * FS :=
  if decide (Ext filepath = sktExt) then (None, fs)
  else
    match beforeEncrypt fs filepath with
    | inl e => (Some e, fs)
    | inr (src, dest, fs) =>
        let fs := file_Write fs dest SKTAESVersion in
        let '(err, _, w) :=
          StreamEnc (f_rd src) (file_writer fs dest) passphrase aesAlgo in
        let fs := file_store fs dest w in
        match err with
        | Some _ => (err, os_Remove fs dest)
        | None => (None, deleteFile fs (f_name src) delete)
        end
    end.

Definition AESFileDecrypt (fs : FS) (filepath : string) (passphrase : bytes)
    (delete : bool) : option error * FS :=
  if decide (Ext filepath ≠ sktExt) then (None, fs)
  else
    match beforeDecrypt fs filepath SKTAESVersion with
    | inl e => (Some e, fs)
    | inr (src, dest, fs) =>
        let '(err, _, w) :=
          StreamDec (f_rd src) (file_writer fs dest) passphrase aesAlgo in
        let fs := file_store fs dest w in
        match err with
        | Some _ => (err, os_Remove fs dest)
        | None => (None, deleteFile fs (f_name src) delete)
        end
    end.

(** [rnd] is the result of [base.GenerateRandomBytes(20)]. *)
Definition RSAFileEncrypt (rnd : bytes) (fs : FS) (filepath keyfile : string)
    (delete : bool) : option error * FS :=
  match os_Open fs keyfile with
  | inl e => (Some e, fs)
  | inr puk =>
      if decide (Ext filepath = sktExt) then (None, fs)
      else
        match beforeEncrypt fs filepath with
        | inl e => (Some e, fs)
        | inr (src, dest, fs) =>
            let passphrase := rnd in
            match RSAEncrypt passphrase puk with
            | inl e => (Some e, fs)
            | inr pbytes =>
                let psize := PutUint64 (N.of_nat (length pbytes)) in
                let fs := file_Write fs dest SKTRSAVersion in
                let fs := file_Write fs dest psize in
                let fs := file_Write fs dest pbytes in
                let '(err, _, w) :=
                  StreamEnc (f_rd src) (file_writer fs dest) passphrase aesAlgo in
                let fs := file_store fs dest w in
                match err with
                | Some _ => (err, os_Remove fs dest)
                | None => (None, deleteFile fs (f_name src) delete)
                end
            end
        end
  end.

(** The slice for the wrapped passphrase is made with the length the
    file announces; the call panics there when [make] does. *)
Definition RSAFileDecrypt (fs : FS) (filepath keyfile : string)
    (delete : bool) : run (option error * FS) :=
  match os_Open fs keyfile with
  | inl e => Ret (Some e, fs)
  | inr prk =>
      if decide (Ext filepath ≠ sktExt) then Ret (None, fs)
      else
        match beforeDecrypt fs filepath SKTRSAVersion with
        | inl e => Ret (Some e, fs)
        | inr (src, dest, fs) =>
            let '(psize, src) := file_Read src pSizeLen in
            n ← make_len (Uint64 psize);
            let '(pbytes, src) := file_Read src n in
            match RSADecrypt pbytes prk with
            | inl e => Ret (Some e, fs)
            | inr passphrase =>
                let '(err, _, w) :=
                  StreamDec (f_rd src) (file_writer fs dest) passphrase aesAlgo in
                let fs := file_store fs dest w in
                match err with
                | Some _ => Ret (err, os_Remove fs dest)
                | None => Ret (None, deleteFile fs (f_name src) delete)
                end
            end
        end
  end.
End Files.

(** *** kit/rnm.go *)

Definition RnmVersion : string := "SKTRNMV1".

(** Modelled from the spec: package kit/kvdb is not among the sources.
    Section 6 gives the store as [Get(key) → (value, found)],
    [Set(key, value) → error] and [Delete(key) → error]; it is a finite
    map from ids to encoded names, and both updates succeed. *)
Abbreviation DataBase := (gmap string string).

Definition db_Get (db : DataBase) (key : string) : option string := db !! key.
Definition db_Set (db : DataBase) (key value : string)
  : option error * DataBase := (None, <[key := value]> db).
Definition db_Delete (db : DataBase) (key : string)
  : option error * DataBase := (None, delete key db).

Definition ErrIDNotFound : error := ErrNew "ID not found in Database".

Definition string_of_bytes (b : bytes) : string := string_of_list_byte b.

Section Rnm.
Context `{Lib}.

(** [Recover(source, passphrase, db)]: the error, the file system and
    the store afterwards. *)
Definition Recover (fs : FS) (source : string) (passphrase : bytes)
    (db : DataBase) : run (option error * FS * DataBase) :=
  let id := Path.Name source in
  if negb (HasPrefix id RnmVersion) then Ret (None, fs, db)
  else
    match db_Get db id with
    | Some fileName =>
        match base64_DecodeString fileName with
        | inl e => Ret (Some e, fs, db)
        | inr ciphertext =>
            salt ← of_slice
              (slice_from ciphertext
                 (Z.of_nat (length ciphertext) - Z.of_nat SaltLen)%Z);
            let '(dk, _, err) := DeriveKey [] passphrase (Some salt) KeyLen in
            match err with
            | Some _ => Ret (err, fs, db)
            | None =>
                match GCMDecrypt ciphertext dk salt with
                | inl e => Ret (Some e, fs, db)
                | inr plaintext =>
                    let fileName :=
                      (Path.BasePath source +:+ string_of_bytes plaintext)%string in
                    let '(err, fs) := os_Rename fs source fileName in
                    match err with
                    | Some _ => Ret (err, fs, db)
                    | None =>
                        let '(err, db) := db_Delete db id in
                        Ret (err, fs, db)
                    end
                end
            end
        end
    | None => Ret (Some ErrIDNotFound, fs, db)
    end.
End Rnm.

End Kit.

(** *** The other copy of [Recover] (the second unnamed source file)

    It differs from kit/rnm.go in its tail: a missing id is not an error
    and the ledger entry is kept.  [GetFileName] and [GetBasePath] are not
    among the sources; they are taken to be [Path.Name] and
    [Path.BasePath], which replaced them. *)
Module KitOld.
Section Rnm.
Context `{Kit.Lib}.

Definition Recover (fs : FS) (source : string) (passphrase : bytes)
    (db : Kit.DataBase) : run (option error * FS * Kit.DataBase) :=
  let id := Path.Name source in
  if negb (HasPrefix id Kit.RnmVersion) then Ret (None, fs, db)
  else
    match Kit.db_Get db id with
    | Some fileName =>
        match Kit.base64_DecodeString fileName with
        | inl e => Ret (Some e, fs, db)
        | inr ciphertext =>
            salt ← of_slice
              (slice_from ciphertext
                 (Z.of_nat (length ciphertext) - Z.of_nat Kit.SaltLen)%Z);
            let '(dk, _, err) :=
              Kit.DeriveKey [] passphrase (Some salt) Kit.KeyLen in
            match err with
            | Some _ => Ret (err, fs, db)
            | None =>
                match Kit.GCMDecrypt ciphertext dk salt with
                | inl e => Ret (Some e, fs, db)
                | inr plaintext =>
                    let fileName :=
                      (Path.BasePath source +:+ Kit.string_of_bytes plaintext)%string in
                    let '(err, fs) := os_Rename fs source fileName in
                    Ret (err, fs, db)
                end
            end
        end
    | None => Ret (None, fs, db)
    end.
End Rnm.
End KitOld.

(** ** Orderly readers

    A reader is orderly when it never returns an empty read without an
    error, and its first error is [io.EOF], after which nothing more is
    scripted.  [content] is the byte sequence it delivers. *)
Fixpoint orderly (r : Reader) : bool :=
  match r with
  | [] => true
  | (d, None) :: r' => negb (bool_decide (d = [])) && orderly r'
  | (d, Some e) :: r' => bool_decide (e = EOF) && bool_decide (r' = [])
  end.

Fixpoint content (r : Reader) : bytes :=
  match r with
  | [] => []
  | (d, None) :: r' => d ++ content r'
  | (d, Some _) :: _ => d
  end.

(** A buffered reader over an orderly reader; [t] is what is still to
    come, buffered or not. *)
Definition buf_ok (b : BufReader) (t : bytes) : Prop :=
  length (br_buf b) ≤ br_size b ∧
  ((br_err b = None ∧ orderly (br_rd b) = true
    ∧ t = br_buf b ++ content (br_rd b))
   ∨ (br_err b = Some EOF ∧ br_rd b = [] ∧ t = br_buf b)).

(** ** What [AESCTRDec] computes, as a function of the whole stream

    The stream is [version (1) ‖ iv (16) ‖ ciphertext ‖ tag (64)]. *)
Definition valid_aes_key (key : bytes) : Prop :=
  length key = 16 ∨ length key = 24 ∨ length key = 32.

Definition stream_iv (s : bytes) : bytes := take IV_SIZE (drop 1 s).
Definition stream_body (s : bytes) : bytes := drop (1 + IV_SIZE) s.
Definition stream_ciphertext (s : bytes) : bytes :=
  take (length (stream_body s) - HMAC_SIZE) (stream_body s).
Definition stream_tag (s : bytes) : bytes :=
  drop (length (stream_body s) - HMAC_SIZE) (stream_body s).

Definition dec_spec `{Primitives} (s : bytes) (out : Writer)
    (keyAes keyHmac : bytes) : option error * Writer :=
  if decide (length s = 0) then (Some EOF, out)
  else if decide (length s = 1) then (Some EOF, out)
  else if decide (length s < 1 + IV_SIZE) then (Some ErrUnexpectedEOF, out)
  else
    match NewCipher keyAes with
    | inl e => (Some e, out)
    | inr aes =>
        if decide (length (stream_body s) < HMAC_SIZE)
        then (Some ErrNotEnoughLeft, out)
        else
          let iv := stream_iv s in
          let c := stream_ciphertext s in
          let plain := xor_stream (ctr_keystream keyAes iv) 0 c in
          let w := (Write plain out).2 in
          if bool_decide (stream_tag s = hmac_sha512 keyHmac (iv ++ c))
          then (None, w)
          else (Some ErrInvalidHMAC, w)
    end.

(** ** What [AESCTREnc] writes, as a function of the IV and the whole
    input: [version ‖ iv ‖ ciphertext ‖ tag]. *)
Definition enc_ciphertext `{Primitives} (iv plain keyAes : bytes) : bytes :=
  xor_stream (ctr_keystream keyAes iv) 0 plain.

Definition enc_frame `{Primitives} (iv plain keyAes keyHmac : bytes) : bytes :=
  let c := enc_ciphertext iv plain keyAes in
  [V1] ++ iv ++ c ++ hmac_sha512 keyHmac (iv ++ c).

(** ** Small instances of the interfaces, for running the model *)

Definition tkey : bytes := replicate 16 x2a.
Definition thello : bytes := [x68; x65; x6c; x6c; x6f].
Definition trnd : Reader := bytes_reader (replicate 16 x07).

Fixpoint drain (r : Reader) : bytes :=
  match r with
  | [] => []
  | (d, _) :: r' => d ++ drain r'
  end.

Definition toy_stream (src : Reader) (dest : Writer) (key : bytes)
  : option error * Reader * Writer :=
  let '(_, e, dest) := Write (map (byte_xor (toy_mix x00 key)) (drain src)) dest in
  (e, [], dest).

Definition toy_sha256 (m : bytes) : bytes := replicate 32 (toy_mix x11 m).

Definition toy_derive (rnd passphrase : bytes) (salt : option bytes) (n : nat)
  : bytes * bytes * option error :=
  let s := default (take 16 (rnd ++ make 16)) salt in
  (replicate n (toy_mix (toy_mix x00 passphrase) s), s, None).

Definition ErrAuth : error := ErrIO "cipher: message authentication failed".

(** A toy sealed box: the payload xored with a key byte, then one check
    byte. *)
Definition toy_seal (plaintext k salt : bytes) : error + bytes :=
  inr (map (byte_xor (toy_mix x00 k)) plaintext ++ [toy_mix x00 k]).

Definition toy_open (ciphertext k salt : bytes) : error + bytes :=
  match reverse ciphertext with
  | t :: body =>
      if decide (t = toy_mix x00 k)
      then inr (map (byte_xor (toy_mix x00 k)) (reverse body))
      else inl ErrAuth
  | [] => inl ErrAuth
  end.

#[global] Program Instance toy_suite : Suite.Lib :=
  {| Suite.SaltLen := 16;
     Suite.DeriveKey := toy_derive;
     Suite.AESGCMEncrypt := toy_seal;
     Suite.AESGCMDecrypt := toy_open;
     Suite.AESCTREncrypt := toy_stream;
     Suite.AESCTRDecrypt := toy_stream;
     Suite.RC4KeyStream := toy_stream;
     Suite.SHA256 := toy_sha256 |}.
Next Obligation. intros. apply length_replicate. Qed.

Definition ErrBadKey : error := ErrIO "failed to parse PEM block".

Definition toy_rsa (msg key : bytes) : error + bytes :=
  if decide (key = []) then inl ErrBadKey
  else inr (map (byte_xor (toy_mix x00 key)) msg).

Definition toy_b64_decode (s : string) : error + bytes :=
  inr (list_byte_of_string s).

#[global] Instance toy_kit : Kit.Lib :=
  {| Kit.SHA256 := toy_sha256;
     Kit.StreamEnc := fun src dest pass _ => toy_stream src dest pass;
     Kit.StreamDec := fun src dest pass _ => toy_stream src dest pass;
     Kit.RSAEncrypt := toy_rsa;
     Kit.RSADecrypt := toy_rsa;
     Kit.SaltLen := 2;
     Kit.KeyLen := 32;
     Kit.DeriveKey := toy_derive;
     Kit.GCMEncrypt := toy_seal;
     Kit.GCMDecrypt := toy_open;
     Kit.base64_EncodeToString := string_of_list_byte;
     Kit.base64_DecodeString := toy_b64_decode |}.

(** The frame of ["hello"] under the toy library, its parts, and the same
    frame with another version byte and with a shortened tail. *)
Definition tiv : bytes := replicate 16 x07.
Definition tcipher : bytes := enc_ciphertext tiv thello tkey.
Definition ttag : bytes := toy_hmac tkey (tiv ++ tcipher).
Definition tframe : bytes := enc_frame tiv thello tkey tkey.
Definition tframe_v2 : bytes := x02 :: drop 1 tframe.
Definition tframe_cut : bytes := take 30 tframe.

(** A small file system and ledger for the toy instances: a key file
    that does not parse, a plain file, an encrypted file in the RSA
    container, and one ledger entry. *)
Definition tfs : FS :=
  <["bad.pem" := []]>
    (<["a.txt" := thello]>
       (<["b.skt" := Kit.SKTRSAVersion ++ PutUint64 3 ++ [x01; x02; x03]
                     ++ thello]> ∅)).

Definition tpass : bytes := [x70; x77].
Definition tid : string := "SKTRNMV1abc".
Definition tsource : string := "dir/SKTRNMV1abc".
Definition tdb : Kit.DataBase := <["SKTRNMV1zzz" := "bmFtZQ=="]> ∅.

(** The stream [StreamEncrypt] writes for ["hello"] on the RC4 path. *)
Definition trc4_stream : bytes :=
  match Suite.StreamEncrypt [] (bytes_reader thello) new_buffer tpass Suite.RC4
  with (_, _, w) => w_data w end.

(** ** The rest of kit/suite/suit.go: [Sign] and [Verify]

    kit/suite/rsa is not among the sources; both functions hand the
    results of the library through. *)
Module SuiteRsa.

Class Lib : Type := {
  RSASign : bytes → bytes → option bytes * option error;
  RSAVerify : bytes → bytes → bytes → bool * option error
}.

Definition Sign `{Lib} (hashed privateKey : bytes)
    (algorithm : Suite.Algorithm) : option bytes * option error :=
  if decide (algorithm = Suite.RSA) then RSASign hashed privateKey
  else (None, Some Suite.algoErr).

Definition Verify `{Lib} (signature hashed publicKey : bytes)
    (algorithm : Suite.Algorithm) : bool * option error :=
  if decide (algorithm = Suite.RSA) then RSAVerify signature hashed publicKey
  else (false, Some Suite.algoErr).

End SuiteRsa.

(** ** The rest of kit/rnm.go: [Rename]

    [rnd] is the entropy [DeriveKey] draws the salt from and [rid] the
    result of [GenerateRandomString(false, false, 20)]. *)
Module Rnm.

Definition bytes_of_string (s : string) : bytes := list_byte_of_string s.

Definition Rename `{Kit.Lib} (rnd : bytes) (rid : string) (fs : FS)
    (source : string) (passphrase : bytes) (db : Kit.DataBase)
  : option error * FS * Kit.DataBase :=
  let fileName := Path.Name source in
  if HasPrefix fileName Kit.RnmVersion then (None, fs, db)
  else
    let '(dk, salt, err) := Kit.DeriveKey rnd passphrase None Kit.KeyLen in
    match err with
    | Some _ => (err, fs, db)
    | None =>
        match Kit.GCMEncrypt (bytes_of_string fileName) dk salt with
        | inl e => (Some e, fs, db)
        | inr ciphertext =>
            let id := (Kit.RnmVersion +:+ rid)%string in
            let '(err, fs) :=
              os_Rename fs source (Path.BasePath source +:+ id)%string in
            match err with
            | Some _ => (err, fs, db)
            | None =>
                let '(err, db) :=
                  Kit.db_Set db id (Kit.base64_EncodeToString ciphertext) in
                (err, fs, db)
            end
        end
    end.

End Rnm.

(** ** Readers that fail

    Pieces of data delivered without an error, then an error [e] with no
    data. *)
Definition failing_reader (chunks : list bytes) (e : error) : Reader :=
  map (fun d => (d, None)) chunks ++ [([], Some e)].

(** A path whose last element is [name]: [dir] is empty or ends with the
    separator, [name] is not empty and holds no separator. *)
Definition no_sep (s : string) : bool :=
  forallb (fun c => negb (is_sep c)) (list_ascii_of_string s).

Definition is_dir (dir : string) : bool :=
  match rev (list_ascii_of_string dir) with
  | [] => true
  | c :: _ => is_sep c
  end.

Definition is_name (name : string) : bool :=
  negb (bool_decide (name = EmptyString)) && no_sep name.

(** A second toy instance of the suite library, for [Sign] and [Verify]. *)
#[global] Instance toy_suite_rsa : SuiteRsa.Lib :=
  {| SuiteRsa.RSASign := fun hashed key =>
       if decide (key = []) then (None, Some ErrBadKey)
       else (Some (map (byte_xor (toy_mix x00 key)) hashed), None);
     SuiteRsa.RSAVerify := fun signature hashed key =>
       if decide (key = []) then (false, Some ErrBadKey)
       else (bool_decide (signature = map (byte_xor (toy_mix x00 key)) hashed),
             None) |}.

Definition tsalt : bytes := take 16 (thello ++ make 16).

(** A toy library for the ledger whose sealed box ends with the salt, as
    [Recover] expects: the payload xored with a key byte, then the salt. *)
Definition toy_seal_salted (plaintext k salt : bytes) : error + bytes :=
  inr (map (byte_xor (toy_mix x00 k)) plaintext ++ salt).

Definition toy_open_salted (ciphertext k salt : bytes) : error + bytes :=
  if decide (drop (length ciphertext - length salt) ciphertext = salt)
  then inr (map (byte_xor (toy_mix x00 k))
                (take (length ciphertext - length salt) ciphertext))
  else inl ErrAuth.

Definition toy_kit_salted : Kit.Lib :=
  {| Kit.SHA256 := toy_sha256;
     Kit.StreamEnc := fun src dest pass _ => toy_stream src dest pass;
     Kit.StreamDec := fun src dest pass _ => toy_stream src dest pass;
     Kit.RSAEncrypt := toy_rsa;
     Kit.RSADecrypt := toy_rsa;
     Kit.SaltLen := 16;
     Kit.KeyLen := 32;
     Kit.DeriveKey := toy_derive;
     Kit.GCMEncrypt := toy_seal_salted;
     Kit.GCMDecrypt := toy_open_salted;
     Kit.base64_EncodeToString := string_of_list_byte;
     Kit.base64_DecodeString := toy_b64_decode |}.

Definition tdb_short : Kit.DataBase := <[tid := "x"]> ∅.
Definition tname : string := "notes.txt".
Definition trid : string := "abc".
Definition tfs_notes : FS := <["dir/notes.txt" := thello]> ∅.
Definition tdk : bytes := (toy_derive thello tpass None 32).1.1.
Definition tbox : bytes := map (byte_xor (toy_mix x00 tdk))
                               (Rnm.bytes_of_string tname).

(** The frame of ["hello"] in three pieces, and a file system with an RC4
    container and a usable key file. *)
Definition tframe_pieces : Reader :=
  [(take 1 tframe, None); (take 20 (drop 1 tframe), None);
   (drop 21 tframe, Some EOF)].

Definition tfs_more : FS :=
  <["good.pem" := [x01]]>
    (<["c.skt" := Kit.SKTRC4Version ++ toy_sha256 tpass ++ thello]> tfs).

Definition ErrBroken : error := ErrIO "broken pipe".

(** A toy library whose stream transforms can fail: encryption refuses a
    source of more than eight bytes, decryption a stream that does not
    end with its check byte. *)
Definition ErrTooLarge : error := ErrIO "file too large".

Definition toy_stream_enc (src : Reader) (dest : Writer) (key : bytes)
  : option error * Reader * Writer :=
  if decide (length (drain src) ≤ 8)
  then
    let '(_, e, dest) :=
      Write (map (byte_xor (toy_mix x00 key)) (drain src) ++ [toy_mix x00 key])
            dest in
    (e, [], dest)
  else (Some ErrTooLarge, src, dest).

Definition toy_stream_dec (src : Reader) (dest : Writer) (key : bytes)
  : option error * Reader * Writer :=
  match reverse (drain src) with
  | t :: body =>
      if decide (t = toy_mix x00 key)
      then
        let '(_, e, dest) :=
          Write (map (byte_xor (toy_mix x00 key)) (reverse body)) dest in
        (e, [], dest)
      else (Some ErrAuth, [], dest)
  | [] => (Some ErrAuth, [], dest)
  end.

Definition toy_kit_checked : Kit.Lib :=
  {| Kit.SHA256 := toy_sha256;
     Kit.StreamEnc := fun src dest pass _ => toy_stream_enc src dest pass;
     Kit.StreamDec := fun src dest pass _ => toy_stream_dec src dest pass;
     Kit.RSAEncrypt := toy_rsa;
     Kit.RSADecrypt := toy_rsa;
     Kit.SaltLen := 2;
     Kit.KeyLen := 32;
     Kit.DeriveKey := toy_derive;
     Kit.GCMEncrypt := toy_seal;
     Kit.GCMDecrypt := toy_open;
     Kit.base64_EncodeToString := string_of_list_byte;
     Kit.base64_DecodeString := toy_b64_decode |}.

(** A file of nine bytes, a container whose body does not end with the
    check byte, and three containers whose names without ".skt" are not
    names of files. *)
Definition tnine : bytes := replicate 9 x41.
Definition tfs_big : FS := <["big.txt" := tnine]> tfs_more.
Definition tfs_sealed : FS :=
  <["ca.skt" := Kit.SKTAESVersion ++ thello]> tfs_more.
Definition tfs_dot : FS :=
  <["r/.skt" := Kit.SKTRC4Version ++ thello]>
    (<[".skt" := Kit.SKTAESVersion ++ thello]>
       (<["k/..skt" := Kit.SKTRSAVersion ++ thello]> tfs_more)).
(** A container that announces 2^63 bytes of wrapped passphrase. *)
Definition tfs_huge : FS :=
  <["h.skt" := Kit.SKTRSAVersion ++ (x80 :: replicate 7 x00) ++ thello]>
    tfs_more.
Definition twrapped : bytes :=
  match toy_rsa tpass [x01] with inr b => b | inl _ => [] end.
Definition tunwrapped : bytes :=
  match toy_rsa [x01; x02; x03] [x01] with inr b => b | inl _ => [] end.

Definition tenc_aes : option error * Reader * Writer :=
  toy_stream (bytes_reader thello) (mkWriter Kit.SKTAESVersion None) tpass.
Definition tenc_rc4 : option error * Reader * Writer :=
  toy_stream (bytes_reader thello)
    (mkWriter (Kit.SKTRC4Version ++ toy_sha256 tpass) None) tpass.
Definition tenc_rsa : option error * Reader * Writer :=
  toy_stream (bytes_reader thello)
    (mkWriter (Kit.SKTRSAVersion ++ PutUint64 2 ++ twrapped) None) tpass.

(** The file of [tfs_notes] as [Rename] leaves it, and its ledger entry. *)
Definition tmoved : string := "dir/SKTRNMV1abc".
Definition tfs_moved : FS := <[tmoved := thello]> ∅.
Definition tdb_moved : Kit.DataBase :=
  <["SKTRNMV1abc"%string := string_of_list_byte (tbox ++ tsalt)]> ∅.

(** * Theorems *)

(** ** Bytes, slices and the keystream *)

Lemma xor8_involutive (a b : bits8) : xor8 (xor8 a b) b = a.
Proof.
  destruct a as (a0 & a1 & a2 & a3 & a4 & a5 & a6 & a7).
  destruct b as (b0 & b1 & b2 & b3 & b4 & b5 & b6 & b7).
  unfold xor8. rewrite !xorb_assoc, !xorb_nilpotent, !xorb_false_r.
  reflexivity.
Qed.

Lemma byte_xor_involutive (a b : byte) : byte_xor (byte_xor a b) b = a.
Proof.
  unfold byte_xor.
  rewrite Byte.to_bits_of_bits, xor8_involutive.
  apply Byte.of_bits_to_bits.
Qed.

Lemma length_xor_stream ks pos src : length (xor_stream ks pos src) = length src.
Proof.
  revert pos. induction src as [|x src IH]; intros pos; simpl; [done|].
  by rewrite IH.
Qed.

Lemma xor_stream_app ks pos a b :
  xor_stream ks pos (a ++ b)
  = xor_stream ks pos a ++ xor_stream ks (pos + length a) b.
Proof.
  revert pos. induction a as [|x a IH]; intros pos; simpl.
  - by rewrite Nat.add_0_r.
  - rewrite IH. do 3 f_equal. lia.
Qed.

Lemma xor_stream_involutive ks pos src :
  xor_stream ks pos (xor_stream ks pos src) = src.
Proof.
  revert pos. induction src as [|x src IH]; intros pos; simpl; [done|].
  by rewrite byte_xor_involutive, IH.
Qed.

Lemma length_make n : length (make n) = n.
Proof. apply length_replicate. Qed.

Lemma copy_full (dst src : bytes) : length dst = length src → copy dst src = src.
Proof.
  intros E. unfold copy. rewrite E, firstn_all.
  rewrite <- E, drop_all. apply app_nil_r.
Qed.

Lemma copy_make (src : bytes) : copy (make (length src)) src = src.
Proof. apply copy_full, length_make. Qed.

Lemma slice_Some (s : bytes) (lo hi : nat) :
  lo ≤ hi → hi ≤ length s →
  slice s (Z.of_nat lo) (Z.of_nat hi) = Some (take (hi - lo) (drop lo s)).
Proof.
  intros H1 H2. unfold slice. rewrite decide_True by lia.
  by rewrite !Nat2Z.id.
Qed.

(** ** Writers: a sequence of writes leaves what one write of the whole
    would leave *)

Lemma Write_nil (w : Writer) : (Write [] w).2 = w.
Proof.
  destruct w as [d [c|]]; unfold Write; simpl.
  - by rewrite app_nil_r, Nat.sub_0_r.
  - by rewrite app_nil_r.
Qed.

Lemma Write_app (p q : bytes) (w : Writer) :
  (Write q (Write p w).2).2 = (Write (p ++ q) w).2.
Proof.
  destruct w as [d [c|]]; unfold Write; simpl.
  - rewrite length_app.
    destruct (decide (length p ≤ c)) as [Hp|Hp]; simpl.
    + destruct (decide (length q ≤ c - length p)) as [Hq|Hq].
      * rewrite decide_True by lia. simpl. rewrite app_assoc.
        do 2 f_equal. lia.
      * rewrite decide_False by lia. simpl.
        rewrite take_app, <- app_assoc.
        by rewrite (take_ge p) by lia.
    + destruct (decide (length p + length q ≤ c)) as [Hpq|Hpq]; [lia|].
      assert (Hc : take c (p ++ q) = take c p).
      { rewrite take_app. replace (c - length p) with 0 by lia.
        by rewrite take_0, app_nil_r. }
      destruct (decide (length q ≤ 0)) as [Hq|Hq]; simpl; rewrite Hc.
      * destruct q; [|simpl in Hq; lia]. by rewrite !app_nil_r.
      * by rewrite take_0, app_nil_r.
  - by rewrite app_assoc.
Qed.

Lemma Write_buffer (p d : bytes) :
  Write p (mkWriter d None) = (length p, None, mkWriter (d ++ p) None).
Proof. reflexivity. Qed.

(** ** Orderly readers under [Read] and [io.ReadFull] *)

Lemma script_size_orderly (r : Reader) :
  orderly r = true → script_size r = length r + length (content r).
Proof.
  unfold script_size. induction r as [|[d [e|]] r IH]; simpl; intros Ho.
  - reflexivity.
  - apply andb_prop in Ho as [_ Hr]. apply bool_decide_eq_true in Hr.
    subst r. simpl. lia.
  - apply andb_prop in Ho as [_ Hr]. specialize (IH Hr).
    rewrite length_app. lia.
Qed.

(** One [Read] of an orderly reader: a prefix of the content comes out,
    the rest stays, and the only error is the final [io.EOF]. *)
Lemma Read_orderly (n : nat) (r : Reader) d e r' :
  orderly r = true → 0 < n → Read n r = (d, e, r') →
  length d ≤ n ∧ content r = d ++ content r' ∧ orderly r' = true ∧
  length r' ≤ length r ∧
  ((e = None ∧ d ≠ [] ∧ (length r' < length r ∨ length d = n))
   ∨ (e = Some EOF ∧ r' = [])).
Proof.
  intros Ho Hn HR. destruct r as [|[d0 e0] rest]; simpl in HR.
  - inversion HR; subst. simpl. naive_solver lia.
  - destruct (decide (length d0 ≤ n)) as [Hle|Hgt];
      inversion HR; subst; clear HR; simpl in Ho.
    + destruct e as [e|].
      * apply andb_prop in Ho as [He Hr].
        apply bool_decide_eq_true in He, Hr. subst.
        simpl. rewrite app_nil_r. naive_solver lia.
      * apply andb_prop in Ho as [Hd Hr].
        apply negb_true_iff, bool_decide_eq_false in Hd.
        simpl. naive_solver lia.
    + assert (Hd : take n d0 ≠ []).
      { destruct d0, n; simpl in *; try lia; discriminate. }
      assert (Hd' : drop n d0 ≠ []).
      { intros E. apply (f_equal length) in E.
        rewrite length_drop in E. simpl in E. lia. }
      assert (Hl : length (take n d0) = n) by (rewrite length_take; lia).
      rewrite Hl. split; [lia|].
      destruct e0 as [e0|]; simpl.
      * apply andb_prop in Ho as [He Hr].
        apply bool_decide_eq_true in He, Hr. subst.
        rewrite take_drop. simpl. naive_solver lia.
      * apply andb_prop in Ho as [_ Hr].
        rewrite app_assoc, take_drop. rewrite Hr.
        rewrite bool_decide_eq_false_2 by done. simpl. naive_solver lia.
Qed.

Lemma read_at_least_orderly (size : nat) :
  ∀ (fuel : nat) (r : Reader) (got : bytes),
    orderly r = true →
    (length got < size → length r < fuel) →
    ∃ e r',
      read_at_least fuel r size got
      = Ret (got ++ take (size - length got) (content r), e, r')
      ∧ orderly r' = true
      ∧ content r' = drop (size - length got) (content r)
      ∧ length r' ≤ length r
      ∧ (length got + length (content r) < size → e = Some EOF).
Proof.
  induction fuel as [|fuel IH]; intros r got Ho Hf.
  - simpl. destruct (decide (length got < size)) as [Hlt|Hge];
      [specialize (Hf Hlt); lia|].
    exists None, r. replace (size - length got) with 0 by lia.
    rewrite take_0, app_nil_r, drop_0. repeat split; auto. lia.
  - simpl. destruct (decide (length got < size)) as [Hlt|Hge].
    + specialize (Hf Hlt).
      destruct (Read (size - length got) r) as [[d e] r1] eqn:HR.
      apply Read_orderly in HR as (Hd & Hc & Ho1 & Hl & Hcase); [|done|lia].
      destruct Hcase as [(-> & Hne & Hprog)|(-> & ->)].
      * destruct (IH r1 (got ++ d) Ho1) as (e & r' & Heq & Ho' & Hc' & Hl' & He).
        { rewrite length_app. intros Hlt'. lia. }
        exists e, r'. rewrite Heq, Hc. rewrite length_app in *.
        rewrite take_app, drop_app, (take_ge d), (drop_ge d) by lia.
        rewrite <- app_assoc. simpl.
        replace (size - (length got + length d))
          with (size - length got - length d) in * by lia.
        repeat split; auto; [lia|].
        rewrite length_app. intros; apply He; lia.
      * exists (Some EOF), []. simpl in Hc. rewrite app_nil_r in Hc. subst d.
        rewrite take_ge, drop_ge by lia. repeat split; auto.
    + exists None, r. replace (size - length got) with 0 by lia.
      rewrite take_0, app_nil_r, drop_0. repeat split; auto. lia.
Qed.

(** [io.ReadFull] on an orderly reader: with enough bytes it returns the
    first [size] of them and leaves an orderly reader for the rest. *)
Lemma ReadFull_enough (fuel size : nat) (r : Reader) :
  orderly r = true → length r < fuel → size ≤ length (content r) →
  ∃ r', ReadFull fuel r size = Ret (take size (content r), None, r')
        ∧ orderly r' = true
        ∧ content r' = drop size (content r)
        ∧ length r' ≤ length r.
Proof.
  intros Ho Hf Hs. unfold ReadFull.
  destruct (read_at_least_orderly size fuel r [] Ho)
    as (e & r' & Heq & Ho' & Hc' & Hl' & He); [intros; lia|].
  rewrite Heq. simpl. rewrite Nat.sub_0_r in *.
  exists r'. rewrite decide_True; [auto|].
  rewrite length_take. lia.
Qed.

(** With too few bytes it fails: [io.EOF] when there is nothing at all,
    [io.ErrUnexpectedEOF] otherwise. *)
Lemma ReadFull_short (fuel size : nat) (r : Reader) :
  orderly r = true → length r < fuel → length (content r) < size →
  ∃ r', ReadFull fuel r size
        = Ret (content r,
               Some (if decide (content r = []) then EOF else ErrUnexpectedEOF),
               r').
Proof.
  intros Ho Hf Hs. unfold ReadFull.
  destruct (read_at_least_orderly size fuel r [] Ho)
    as (e & r' & Heq & Ho' & Hc' & Hl' & He); [intros; lia|].
  rewrite Heq. simpl. rewrite Nat.sub_0_r in *.
  rewrite He by (simpl; lia). rewrite take_ge by lia.
  exists r'. rewrite decide_False by lia.
  by destruct (content r) as [|x t].
Qed.

(** ** The buffered reader over an orderly reader *)

Lemma run_bind_Ret {A B : Type} (a : A) (k : A → run B) : (Ret a ≫= k) = k a.
Proof. reflexivity. Qed.

Lemma fill_tries_S (i : nat) (b : BufReader) :
  fill_tries (S i) b
  = let '(d, e, rd') := Read (br_size b - length (br_buf b)) (br_rd b) in
    match e with
    | Some _ => mkBuf (br_size b) (br_buf b ++ d) rd' e
    | None =>
        if decide (0 < length d)
        then mkBuf (br_size b) (br_buf b ++ d) rd' (br_err b)
        else fill_tries i (mkBuf (br_size b) (br_buf b ++ d) rd' (br_err b))
    end.
Proof. reflexivity. Qed.

Lemma fill_orderly (b : BufReader) (t : bytes) :
  buf_ok b t → br_err b = None → length (br_buf b) < br_size b →
  buf_ok (fill b) t ∧ br_size (fill b) = br_size b
  ∧ length (br_rd (fill b)) ≤ length (br_rd b)
  ∧ (br_err (fill b) = Some EOF
     ∨ (br_err (fill b) = None
        ∧ (length (br_buf (fill b)) = br_size b
           ∨ length (br_rd (fill b)) < length (br_rd b)))).
Proof.
  intros [Hsz Hok] He Hlt.
  destruct Hok as [(_ & Ho & ->)|(He' & _)]; [|congruence].
  unfold fill, maxConsecutiveEmptyReads. rewrite fill_tries_S.
  destruct (Read (br_size b - length (br_buf b)) (br_rd b))
    as [[d e] rd'] eqn:HR.
  apply Read_orderly in HR as (Hd & Hc & Ho1 & Hl & Hcase); [|done|lia].
  destruct Hcase as [(-> & Hne & Hprog)|(-> & ->)].
  - rewrite decide_True by (destruct d; [done|simpl; lia]).
    unfold buf_ok. simpl. rewrite length_app, Hc, He.
    split; [split; [lia|]; left; by rewrite <- app_assoc|].
    do 2 (split; [done|]). right. split; [done|].
    destruct Hprog; [right|left]; lia.
  - unfold buf_ok. simpl. rewrite length_app, Hc. simpl.
    rewrite app_nil_r. naive_solver lia.
Qed.

Lemma peek_fill_orderly (n : nat) :
  ∀ (fuel : nat) (b : BufReader) (t : bytes),
    buf_ok b t → n = br_size b →
    (length (br_buf b) < n → br_err b = None → length (br_rd b) < fuel) →
    ∃ b', peek_fill fuel n b = Ret b'
          ∧ buf_ok b' t ∧ br_size b' = br_size b
          ∧ length (br_rd b') ≤ length (br_rd b)
          ∧ (length (br_buf b') = n ∨ br_err b' = Some EOF).
Proof.
  induction fuel as [|fuel IH]; intros b t Hok Hn Hf.
  - simpl. unfold Buffered. case_decide as Hc.
    + destruct Hc as (H1 & _ & H3). specialize (Hf H1 H3). lia.
    + exists b. do 4 (split; [done|]).
      destruct Hok as [Hsz [(He & _)|(He & _)]]; [|by right].
      left. destruct (decide (length (br_buf b) < n)); [|lia].
      exfalso. apply Hc. repeat split; auto; lia.
  - simpl. unfold Buffered. case_decide as Hc.
    + destruct Hc as (H1 & H2 & H3). specialize (Hf H1 H3).
      destruct (fill_orderly b t Hok H3 H2) as (Hok' & Hsz' & Hl' & Hcase).
      destruct (IH (fill b) t Hok') as (b' & Heq & Hok'' & Hsz'' & Hl'' & Hpost).
      { congruence. }
      { intros H1' H3'. destruct Hcase as [E|(_ & [E|E])]; [congruence|lia|lia]. }
      exists b'. rewrite Heq. do 2 (split; [done|]). split; [congruence|]. split; [lia|done].
    + exists b. do 4 (split; [done|]).
      destruct Hok as [Hsz [(He & _)|(He & _)]]; [|by right].
      left. destruct (decide (length (br_buf b) < n)); [|lia].
      exfalso. apply Hc. repeat split; auto; lia.
Qed.

(** [Peek] with [n] the size of the buffer: the next [n] bytes, or all
    that is left together with [io.EOF]. *)
Lemma Peek_orderly (fuel n : nat) (b : BufReader) (t : bytes) :
  buf_ok b t → n = br_size b → length (br_rd b) < fuel →
  ∃ b', Peek fuel n b
        = Ret (take n t, if decide (n ≤ length t) then None else Some EOF, b')
        ∧ buf_ok b' t ∧ br_size b' = br_size b
        ∧ length (br_rd b') ≤ length (br_rd b)
        ∧ br_buf b' = take n t.
Proof.
  intros Hok Hn Hf.
  destruct (peek_fill_orderly n fuel b t Hok Hn)
    as (b1 & Heq & Hok1 & Hsz1 & Hl1 & Hpost); [auto|].
  unfold Peek. rewrite Heq, run_bind_Ret.
  rewrite decide_False by lia. unfold Buffered.
  destruct Hok1 as [Hle1 Hcase].
  destruct (decide (length (br_buf b1) < n)) as [Hlt|Hge].
  - destruct Hpost as [?|He]; [lia|].
    destruct Hcase as [(He' & _)|(_ & Hrd & ->)]; [congruence|].
    rewrite He, take_ge, decide_False by lia.
    eexists. split; [reflexivity|]. unfold buf_ok. simpl.
    rewrite Hrd. simpl. rewrite app_nil_r. naive_solver lia.
  - assert (Hlen : length (br_buf b1) = n) by lia.
    assert (Ht : take n t = br_buf b1).
    { destruct Hcase as [(_ & _ & ->)|(_ & _ & ->)].
      - rewrite take_app_length'; done.
      - apply take_ge; lia. }
    assert (Hnt : n ≤ length t).
    { rewrite <- Hlen. destruct Hcase as [(_ & _ & ->)|(_ & _ & ->)];
        [rewrite length_app|]; lia. }
    rewrite decide_True by done. rewrite (take_ge (br_buf b1)) by lia.
    exists b1. rewrite Ht. unfold buf_ok. naive_solver lia.
Qed.

Lemma BufRead_buffered (k : nat) (b : BufReader) (t : bytes) :
  buf_ok b t → 0 < k → k ≤ length (br_buf b) →
  ∃ b', BufRead k b = (take k t, None, b')
        ∧ buf_ok b' (drop k t) ∧ br_size b' = br_size b
        ∧ br_rd b' = br_rd b.
Proof.
  intros [Hsz Hok] Hk Hle. unfold BufRead, Buffered.
  rewrite decide_False by lia. rewrite decide_False by lia.
  exists (mkBuf (br_size b) (drop k (br_buf b)) (br_rd b) (br_err b)).
  split; [|split; [|done]].
  - do 2 f_equal. destruct Hok as [(_ & _ & ->)|(_ & _ & ->)]; [|done].
    rewrite take_app. replace (k - length (br_buf b)) with 0 by lia.
    by rewrite take_0, app_nil_r.
  - unfold buf_ok. simpl. rewrite length_drop. split; [lia|].
    destruct Hok as [(He & Ho & ->)|(He & Hr & ->)]; [left|right];
      repeat split; auto.
    rewrite drop_app. replace (k - length (br_buf b)) with 0 by lia.
    by rewrite drop_0.
Qed.

(** ** The loop of [AESCTRDec] *)

Lemma BUFFER_SIZE_gt : HMAC_SIZE < BUFFER_SIZE.
Proof. unfold HMAC_SIZE, BUFFER_SIZE. lia. Qed.

Lemma hmac_Write_nil (h : Hmac) : hmac_Write [] h = h.
Proof. destruct h. unfold hmac_Write. simpl. by rewrite app_nil_r. Qed.

Lemma hmac_Write_app (p q : bytes) (h : Hmac) :
  hmac_Write q (hmac_Write p h) = hmac_Write (p ++ q) h.
Proof. unfold hmac_Write. simpl. by rewrite app_assoc. Qed.

Lemma slice_to_nat (s : bytes) (k : nat) :
  k ≤ length s → slice_to s (Z.of_nat k) = Some (take k s).
Proof.
  intros Hk. unfold slice_to. change 0%Z with (Z.of_nat 0).
  rewrite slice_Some by lia. by rewrite Nat.sub_0_r, drop_0.
Qed.

Lemma XORKeyStream_make (s : Stream) (p : bytes) :
  XORKeyStream s (make (length p)) p
  = Ret (xor_stream (st_ks s) (st_pos s) p,
         mkStream (st_ks s) (st_pos s + length p)).
Proof.
  unfold XORKeyStream. rewrite length_make, decide_False by lia.
  rewrite copy_full; [done|]. by rewrite length_make, length_xor_stream.
Qed.

Lemma is_eof_None : is_eof None = false.
Proof. reflexivity. Qed.

Lemma is_eof_EOF : is_eof (Some EOF) = true.
Proof. reflexivity. Qed.

Local Opaque BUFFER_SIZE.

Lemma dec_loop_orderly :
  ∀ (fuel : nat) (b : BufReader) (t : bytes) (ctr : Stream) (h : Hmac)
    (mac : bytes) (w : Writer),
    buf_ok b t → br_size b = BUFFER_SIZE → HMAC_SIZE ≤ length t →
    length mac = HMAC_SIZE →
    length t + length (br_rd b) + 1 < fuel →
    let c := take (length t - HMAC_SIZE) t in
    dec_loop fuel b ctr h mac w
    = Ret (None, drop (length t - HMAC_SIZE) t, hmac_Write c h,
           (Write (xor_stream (st_ks ctr) (st_pos ctr) c) w).2).
Proof.
  pose proof BUFFER_SIZE_gt as HBS.
  induction fuel as [|fuel IH]; intros b t ctr h mac w Hok Hsz Ht Hmac Hf c;
    [lia|].
  subst c. cbn [dec_loop].
  destruct (Peek_orderly fuel BUFFER_SIZE b t Hok) as
    (b1 & Heq & Hok1 & Hsz1 & Hl1 & Hbuf1); [done|lia|].
  rewrite Heq, run_bind_Ret. unfold Buffered. rewrite Hbuf1.
  destruct (decide (BUFFER_SIZE ≤ length t)) as [Hfull|Hshort].
  - (* a full buffer: all but the last HMAC_SIZE bytes are processed *)
    assert (Hlen : length (take BUFFER_SIZE t) = BUFFER_SIZE)
      by (rewrite length_take; lia).
    rewrite Hlen. cbn [fatal]. rewrite is_eof_None.
    cbn [andb]. rewrite run_bind_Ret.
    rewrite <- Nat2Z.inj_sub by (unfold HMAC_SIZE in *; lia).
    rewrite slice_to_nat by lia. cbn [of_slice]. rewrite run_bind_Ret.
    rewrite Nat2Z.id.
    set (k := BUFFER_SIZE - HMAC_SIZE) in *.
    assert (Hk : 0 < k ≤ length t) by (unfold k; lia).
    assert (Hp : take k (take BUFFER_SIZE t) = take k t)
      by (rewrite take_take; f_equal; unfold k; lia).
    rewrite Hp.
    assert (Hlp : length (take k t) = k) by (rewrite length_take; lia).
    rewrite Hlp.
    destruct (BufRead_buffered k b1 t Hok1) as (b2 & HR & Hok2 & Hsz2 & Hrd2);
      [lia|rewrite Hbuf1, Hlen; unfold k; lia|].
    rewrite HR.
    rewrite <- Hlp at 1. rewrite XORKeyStream_make, run_bind_Ret, Hlp.
    destruct (Write (xor_stream (st_ks ctr) (st_pos ctr) (take k t)) w)
      as [[n e] w1] eqn:HW.
    rewrite IH with (t := drop k t); auto.
    + rewrite length_drop, drop_drop. cbn [st_ks st_pos].
      replace (k + (length t - k - HMAC_SIZE)) with (length t - HMAC_SIZE)
        by lia.
      rewrite hmac_Write_app.
      assert (Hc : take (length t - HMAC_SIZE) t
                   = take k t ++ take (length t - k - HMAC_SIZE) (drop k t)).
      { rewrite take_take_drop. f_equal. lia. }
      rewrite Hc, xor_stream_app, Hlp, <- Write_app, HW. done.
    + congruence.
    + rewrite length_drop. unfold HMAC_SIZE in *. lia.
    + rewrite length_drop, Hrd2. lia.
  - (* the end of the stream *)
    assert (Hlen : take BUFFER_SIZE t = t) by (apply take_ge; lia).
    rewrite Hlen. cbn [fatal]. rewrite is_eof_EOF.
    cbn [andb]. rewrite bool_decide_eq_false_2 by lia.
    rewrite <- Nat2Z.inj_sub by lia.
    rewrite slice_Some by lia. cbn [of_slice]. rewrite !run_bind_Ret.
    replace (length t - (length t - HMAC_SIZE)) with HMAC_SIZE by lia.
    assert (Htail : length (drop (length t - HMAC_SIZE) t) = HMAC_SIZE)
      by (rewrite length_drop; lia).
    rewrite (take_ge (drop _ _)) by lia.
    rewrite copy_full by lia.
    destruct (decide (length t = HMAC_SIZE)) as [E|NE].
    + rewrite bool_decide_eq_true_2 by done.
      replace (length t - HMAC_SIZE) with 0 by lia.
      rewrite take_0, hmac_Write_nil. simpl xor_stream. by rewrite Write_nil.
    + rewrite bool_decide_eq_false_2 by done.
      rewrite slice_to_nat by lia. cbn [of_slice]. rewrite run_bind_Ret.
      rewrite Nat2Z.id.
      set (k := length t - HMAC_SIZE) in *.
      assert (Hlp : length (take k t) = k) by (rewrite length_take; lia).
      rewrite Hlp.
      destruct (BufRead_buffered k b1 t Hok1) as (b2 & HR & _);
        [lia|rewrite Hbuf1, Hlen; lia|].
      rewrite HR.
      rewrite <- Hlp at 1. rewrite XORKeyStream_make, run_bind_Ret.
      by destruct (Write _ w) as [[n e] w1].
Qed.

Lemma dec_loop_truncated (fuel : nat) (b : BufReader) (t : bytes)
    (ctr : Stream) (h : Hmac) (mac : bytes) (w : Writer) :
  buf_ok b t → br_size b = BUFFER_SIZE → length t < HMAC_SIZE →
  length (br_rd b) + 1 < fuel →
  dec_loop fuel b ctr h mac w = Ret (Some ErrNotEnoughLeft, mac, h, w).
Proof.
  pose proof BUFFER_SIZE_gt as HBS.
  intros Hok Hsz Ht Hf. destruct fuel as [|fuel]; [lia|]. cbn [dec_loop].
  destruct (Peek_orderly fuel BUFFER_SIZE b t Hok) as
    (b1 & Heq & Hok1 & Hsz1 & Hl1 & Hbuf1); [done|lia|].
  rewrite Heq, run_bind_Ret. unfold Buffered. rewrite Hbuf1.
  rewrite decide_False by lia. rewrite take_ge by lia.
  cbn [fatal]. rewrite is_eof_EOF.
  cbn [andb]. by rewrite bool_decide_eq_true_2 by lia.
Qed.

Lemma NewReaderSize_ok (r : Reader) :
  orderly r = true →
  buf_ok (NewReaderSize r BUFFER_SIZE) (content r)
  ∧ br_size (NewReaderSize r BUFFER_SIZE) = BUFFER_SIZE.
Proof.
  pose proof BUFFER_SIZE_gt as HBS. unfold HMAC_SIZE in HBS.
  intros Ho. unfold NewReaderSize, buf_ok. simpl.
  split; [split; [lia|]|lia]. left. auto.
Qed.

Lemma NewCipher_valid (key : bytes) :
  valid_aes_key key → NewCipher key = inr (mkBlock key).
Proof. intros Hk. unfold NewCipher. by rewrite decide_True. Qed.

Lemma NewCipher_invalid (key : bytes) :
  ¬ valid_aes_key key → NewCipher key = inl (KeySizeError (length key)).
Proof. intros Hk. unfold NewCipher. by rewrite decide_False. Qed.

(** [AESCTRDec] on an orderly reader computes [dec_spec] of the stream
    the reader delivers. *)
Lemma AESCTRDec_refines `{Primitives} (fuel : nat) (src : Reader)
    (out : Writer) (keyAes keyHmac : bytes) :
  orderly src = true → script_size src + 1 < fuel →
  AESCTRDec fuel src out keyAes keyHmac
  = Ret (dec_spec (content src) out keyAes keyHmac).
Proof.
  intros Ho Hf. rewrite script_size_orderly in Hf by done.
  unfold AESCTRDec, dec_spec.
  set (s := content src) in *.
  destruct (decide (length s = 0)) as [H0|H0].
  { destruct (ReadFull_short fuel 1 src Ho) as (r' & Heq); [lia|fold s; lia|].
    rewrite Heq, run_bind_Ret. fold s.
    destruct s; [done|simpl in H0; lia]. }
  destruct (ReadFull_enough fuel 1 src Ho) as (r1 & Heq1 & Ho1 & Hc1 & Hl1);
    [lia|fold s; lia|].
  rewrite Heq1, run_bind_Ret. fold s in Hc1.
  destruct (decide (length s = 1)) as [H1|H1].
  { destruct (ReadFull_short fuel IV_SIZE r1 Ho1) as (r' & Heq);
      [lia|rewrite Hc1, length_drop; unfold IV_SIZE; lia|].
    rewrite Heq, run_bind_Ret. rewrite Hc1.
    rewrite decide_True; [done|]. apply drop_ge. lia. }
  destruct (decide (length s < 1 + IV_SIZE)) as [H17|H17].
  { destruct (ReadFull_short fuel IV_SIZE r1 Ho1) as (r' & Heq);
      [lia|rewrite Hc1, length_drop; unfold IV_SIZE in *; lia|].
    rewrite Heq, run_bind_Ret. rewrite Hc1.
    rewrite decide_False; [done|].
    intros E. apply (f_equal length) in E. rewrite length_drop in E.
    simpl in E. lia. }
  destruct (ReadFull_enough fuel IV_SIZE r1 Ho1) as (r2 & Heq2 & Ho2 & Hc2 & Hl2);
    [lia|rewrite Hc1, length_drop; unfold IV_SIZE in *; lia|].
  rewrite Heq2, run_bind_Ret. rewrite Hc1 in *. clear Heq1 Heq2.
  rewrite drop_drop in Hc2. fold (stream_iv s). 
  replace (IV_SIZE + 1) with (1 + IV_SIZE) in Hc2 by lia.
  fold (stream_body s) in Hc2.
  assert (Hiv : length (stream_iv s) = IV_SIZE).
  { unfold stream_iv. rewrite length_take, length_drop. unfold IV_SIZE in *. lia. }
  rewrite copy_full by (by rewrite length_make).
  destruct (NewCipher keyAes) as [e|aes] eqn:HK; [done|].
  assert (Haes : blk_key aes = keyAes).
  { unfold NewCipher in HK. case_decide; inversion HK; done. }
  unfold NewCTR. rewrite decide_True by done. rewrite run_bind_Ret, Haes.
  destruct (NewReaderSize_ok r2 Ho2) as [Hok Hsz]. rewrite Hc2 in Hok.
  assert (Hbody : length (stream_body s) ≤ length s)
    by (unfold stream_body; rewrite length_drop; lia).
  destruct (decide (length (stream_body s) < HMAC_SIZE)) as [Hb|Hb].
  { rewrite (dec_loop_truncated _ _ _ _ _ _ _ Hok Hsz Hb); [done|].
    simpl. lia. }
  rewrite (dec_loop_orderly _ _ _ _ _ _ _ Hok Hsz); [|lia|apply length_make|simpl; lia].
  rewrite run_bind_Ret. cbn [st_ks st_pos].
  fold (stream_ciphertext s). fold (stream_tag s).
  unfold hmac_Equal, hmac_Sum, hmac_Write, hmac_New. simpl h_key. simpl h_data.
  by case_bool_decide.
Qed.

(** ** The loop of [AESCTREnc], writing into a buffer *)

Lemma MultiWrite_buffer (p d : bytes) (h : Hmac) :
  MultiWrite p (mkWriter d None) h
  = (length p, None, mkWriter (d ++ p) None, hmac_Write p h).
Proof.
  unfold MultiWrite. rewrite Write_buffer. by rewrite decide_False by auto.
Qed.

Lemma BUFFER_SIZE_pos : 0 < BUFFER_SIZE.
Proof. pose proof BUFFER_SIZE_gt. lia. Qed.

Lemma enc_loop_orderly :
  ∀ (fuel : nat) (src : Reader) (ctr : Stream) (d0 : bytes) (h : Hmac),
    orderly src = true → length src + length (content src) < fuel →
    let c := xor_stream (st_ks ctr) (st_pos ctr) (content src) in
    enc_loop fuel src ctr (mkWriter d0 None) h
    = Ret (None, mkWriter (d0 ++ c) None, hmac_Write c h).
Proof.
  induction fuel as [|fuel IH]; intros src ctr d0 h Ho Hf c; [lia|].
  subst c. cbn [enc_loop].
  destruct (Read BUFFER_SIZE src) as [[d e] r'] eqn:HR.
  apply Read_orderly in HR as (Hd & Hc & Ho1 & Hl & Hcase);
    [|done|apply BUFFER_SIZE_pos].
  destruct Hcase as [(-> & Hne & _)|(-> & ->)].
  - cbn [fatal]. rewrite is_eof_None.
    rewrite decide_True by (destruct d; [done|simpl; lia]).
    rewrite XORKeyStream_make, run_bind_Ret, MultiWrite_buffer, run_bind_Ret.
    rewrite IH; [|done|].
    + cbn [st_ks st_pos]. rewrite Hc, xor_stream_app, hmac_Write_app.
      by rewrite app_assoc.
    + rewrite Hc, length_app in Hf.
      assert (0 < length d) by (destruct d; [done|simpl; lia]). lia.
  - cbn [fatal]. rewrite is_eof_EOF. simpl in Hc. rewrite app_nil_r in Hc.
    rewrite Hc. destruct (decide (length d ≠ 0)) as [Hn|Hn].
    + by rewrite XORKeyStream_make, run_bind_Ret, MultiWrite_buffer, run_bind_Ret.
    + rewrite run_bind_Ret. destruct d; [|simpl in Hn; lia].
      simpl. by rewrite hmac_Write_nil, app_nil_r.
Qed.

(** [AESCTREnc] into a buffer, with an orderly input and a random source
    that yields at least [IV_SIZE] bytes: it returns [nil] and has
    appended the frame. *)
Lemma AESCTREnc_frame `{Primitives} (fuel : nat) (rnd src : Reader)
    (d0 keyAes keyHmac : bytes) :
  orderly rnd = true → IV_SIZE ≤ length (content rnd) → length rnd < fuel →
  orderly src = true → script_size src < fuel →
  valid_aes_key keyAes →
  AESCTREnc fuel rnd src (mkWriter d0 None) keyAes keyHmac
  = Ret (None,
         mkWriter (d0 ++ enc_frame (take IV_SIZE (content rnd)) (content src)
                                   keyAes keyHmac) None).
Proof.
  intros Hor Hiv Hfr Ho Hf Hk. rewrite script_size_orderly in Hf by done.
  unfold AESCTREnc.
  destruct (ReadFull_enough fuel IV_SIZE rnd Hor Hfr Hiv) as (r' & Heq & _).
  rewrite Heq, run_bind_Ret.
  set (iv := take IV_SIZE (content rnd)).
  assert (Hl : length iv = IV_SIZE) by (unfold iv; rewrite length_take; lia).
  rewrite copy_full by (by rewrite length_make).
  rewrite NewCipher_valid by done.
  unfold NewCTR. rewrite decide_True by done. rewrite run_bind_Ret.
  rewrite Write_buffer, MultiWrite_buffer.
  rewrite enc_loop_orderly by done. rewrite run_bind_Ret.
  cbn [st_ks st_pos blk_key]. rewrite Write_buffer.
  unfold enc_frame, enc_ciphertext, hmac_Sum, hmac_Write, hmac_New.
  cbn [h_key h_data]. rewrite <- !app_assoc. done.
Qed.

(** ** The stream as a whole *)

Section Frame.
Context `{Primitives}.
Variables (v : byte) (iv body : bytes).
Hypothesis Hiv : length iv = IV_SIZE.

Lemma stream_iv_frame : stream_iv (v :: iv ++ body) = iv.
Proof.
  unfold stream_iv. simpl. rewrite drop_0, <- Hiv.
  by rewrite take_app_length.
Qed.

Lemma stream_body_frame : stream_body (v :: iv ++ body) = body.
Proof.
  unfold stream_body. rewrite <- Hiv. simpl. by rewrite drop_app_length.
Qed.

Lemma frame_not_short : ¬ length (v :: iv ++ body) < 1 + IV_SIZE.
Proof. simpl. rewrite length_app, Hiv. lia. Qed.

(** [dec_spec] on a stream that holds a version byte and an IV. *)
Lemma dec_spec_frame (out : Writer) (keyAes keyHmac : bytes) :
  valid_aes_key keyAes →
  dec_spec (v :: iv ++ body) out keyAes keyHmac
  = if decide (length body < HMAC_SIZE) then (Some ErrNotEnoughLeft, out)
    else
      let c := take (length body - HMAC_SIZE) body in
      let w := (Write (xor_stream (ctr_keystream keyAes iv) 0 c) out).2 in
      if bool_decide (drop (length body - HMAC_SIZE) body
                      = hmac_sha512 keyHmac (iv ++ c))
      then (None, w) else (Some ErrInvalidHMAC, w).
Proof.
  intros Hk. unfold dec_spec.
  pose proof frame_not_short as Hns.
  rewrite decide_False by (simpl; lia).
  rewrite decide_False by (simpl in *; unfold IV_SIZE in *; lia).
  rewrite decide_False by done.
  rewrite NewCipher_valid by done.
  unfold stream_ciphertext, stream_tag.
  by rewrite stream_iv_frame, stream_body_frame.
Qed.
End Frame.

Lemma dec_spec_enc_frame `{Primitives} (iv plain keyAes keyHmac : bytes)
    (out : Writer) :
  length iv = IV_SIZE → valid_aes_key keyAes →
  dec_spec (enc_frame iv plain keyAes keyHmac) out keyAes keyHmac
  = (None, (Write plain out).2).
Proof.
  intros Hiv Hk. unfold enc_frame. cbn [app].
  rewrite dec_spec_frame by done.
  set (c := enc_ciphertext iv plain keyAes).
  set (tag := hmac_sha512 keyHmac (iv ++ c)).
  assert (Htag : length tag = HMAC_SIZE) by apply hmac_sha512_size.
  rewrite length_app, Htag.
  rewrite decide_False by lia.
  replace (length c + HMAC_SIZE - HMAC_SIZE) with (length c) by lia.
  rewrite take_app_length, drop_app_length. cbn zeta.
  fold tag. rewrite bool_decide_eq_true_2 by done.
  unfold c, enc_ciphertext. by rewrite xor_stream_involutive.
Qed.

(** ** kit/aes/ctr.go: the claims *)

(** C1. Round trip.  For every byte sequence [plain] (the empty one
    included), every valid AES key and every HMAC key: [AESCTREnc] on a
    reader that delivers [plain] returns [nil] and produces a stream, and
    [AESCTRDec] on any orderly reader that delivers this stream writes
    exactly [plain] and returns [nil]. *)
Theorem AESCTR_round_trip `{Primitives} (fuel : nat) (rnd src : Reader)
    (plain keyAes keyHmac : bytes) :
  valid_aes_key keyAes →
  orderly rnd = true → IV_SIZE ≤ length (content rnd) → length rnd < fuel →
  orderly src = true → content src = plain → script_size src < fuel →
  ∃ stream,
    AESCTREnc fuel rnd src new_buffer keyAes keyHmac
    = Ret (None, mkWriter stream None)
    ∧ ∀ (fuel' : nat) (rd : Reader),
        orderly rd = true → content rd = stream → script_size rd + 1 < fuel' →
        AESCTRDec fuel' rd new_buffer keyAes keyHmac
        = Ret (None, mkWriter plain None).
Proof.
  intros Hk Hor Hiv Hfr Ho Hc Hf.
  exists (enc_frame (take IV_SIZE (content rnd)) plain keyAes keyHmac).
  split.
  - unfold new_buffer. rewrite AESCTREnc_frame by done. by rewrite Hc.
  - intros fuel' rd Hord Hcd Hfd.
    rewrite AESCTRDec_refines by done. rewrite Hcd.
    rewrite dec_spec_enc_frame; [done| |done].
    rewrite length_take. lia.
Qed.

(** C2. Output length.  A successful [AESCTREnc] on an input of [n]
    bytes appends exactly [1 + 16 + n + 64] bytes: the version byte, a
    16-byte IV, [n] bytes of ciphertext and a 64-byte tag. *)
Theorem AESCTREnc_output_layout `{Primitives} (fuel : nat) (rnd src : Reader)
    (d0 keyAes keyHmac : bytes) :
  valid_aes_key keyAes →
  orderly rnd = true → IV_SIZE ≤ length (content rnd) → length rnd < fuel →
  orderly src = true → script_size src < fuel →
  ∃ iv c tag,
    AESCTREnc fuel rnd src (mkWriter d0 None) keyAes keyHmac
    = Ret (None, mkWriter (d0 ++ [V1] ++ iv ++ c ++ tag) None)
    ∧ length iv = 16 ∧ length c = length (content src) ∧ length tag = 64
    ∧ length ([V1] ++ iv ++ c ++ tag) = 1 + 16 + length (content src) + 64.
Proof.
  intros Hk Hor Hiv Hfr Ho Hf.
  set (iv := take IV_SIZE (content rnd)).
  set (c := enc_ciphertext iv (content src) keyAes).
  exists iv, c, (hmac_sha512 keyHmac (iv ++ c)).
  assert (Hl : length iv = 16) by (unfold iv; rewrite length_take; unfold IV_SIZE in *; lia).
  assert (Hlc : length c = length (content src)) by apply length_xor_stream.
  split; [by rewrite AESCTREnc_frame by done|].
  repeat split; auto using hmac_sha512_size.
  cbn [app length]. rewrite !length_app, hmac_sha512_size. lia.
Qed.

(** C3. Tag check.  On a stream [version ‖ iv ‖ c ‖ tag] with a 64-byte
    [tag], [AESCTRDec] returns [nil] exactly when [tag] is the HMAC of
    [iv ‖ c]; otherwise it returns [ErrInvalidHMAC].  In both cases the
    decryption of [c] has been written. *)
Theorem AESCTRDec_tag_check `{Primitives} (fuel : nat) (src : Reader)
    (out : Writer) (keyAes keyHmac : bytes) (v : byte) (iv c tag : bytes) :
  valid_aes_key keyAes →
  orderly src = true → content src = v :: iv ++ c ++ tag →
  length iv = IV_SIZE → length tag = HMAC_SIZE →
  script_size src + 1 < fuel →
  ∃ e,
    AESCTRDec fuel src out keyAes keyHmac
    = Ret (e, (Write (xor_stream (ctr_keystream keyAes iv) 0 c) out).2)
    ∧ (e = None ↔ tag = hmac_sha512 keyHmac (iv ++ c))
    ∧ (tag ≠ hmac_sha512 keyHmac (iv ++ c) → e = Some ErrInvalidHMAC).
Proof.
  intros Hk Ho Hc Hiv Htag Hf.
  rewrite AESCTRDec_refines by done. rewrite Hc.
  rewrite dec_spec_frame by done.
  rewrite length_app, Htag. rewrite decide_False by lia.
  replace (length c + HMAC_SIZE - HMAC_SIZE) with (length c) by lia.
  rewrite take_app_length, drop_app_length. cbn zeta.
  case_bool_decide as Heq.
  - exists None. repeat split; auto. congruence.
  - exists (Some ErrInvalidHMAC). repeat split; auto; congruence.
Qed.

(** C5. Truncation.  When fewer than 64 bytes follow the version byte
    and the IV, [AESCTRDec] returns the error "not enough left", which is
    not [ErrInvalidHMAC], and has written nothing; it returns for every
    budget above the size of the input. *)
Theorem AESCTRDec_truncated `{Primitives} (fuel : nat) (src : Reader)
    (out : Writer) (keyAes keyHmac : bytes) (v : byte) (iv body : bytes) :
  valid_aes_key keyAes →
  orderly src = true → content src = v :: iv ++ body →
  length iv = IV_SIZE → length body < HMAC_SIZE →
  script_size src + 1 < fuel →
  AESCTRDec fuel src out keyAes keyHmac = Ret (Some ErrNotEnoughLeft, out)
  ∧ ErrNotEnoughLeft ≠ ErrInvalidHMAC.
Proof.
  intros Hk Ho Hc Hiv Hb Hf. split; [|discriminate].
  rewrite AESCTRDec_refines by done. rewrite Hc.
  rewrite dec_spec_frame by done. by rewrite decide_True by done.
Qed.

(** C4, as amended.  [AESCTRDec] reads the version byte and does not
    look at it: two streams that differ in the first byte only give the
    same result. *)
Theorem AESCTRDec_ignores_version `{Primitives} (fuel : nat)
    (src1 src2 : Reader) (out : Writer) (keyAes keyHmac : bytes)
    (v1 v2 : byte) (rest : bytes) :
  orderly src1 = true → content src1 = v1 :: rest →
  orderly src2 = true → content src2 = v2 :: rest →
  script_size src1 + 1 < fuel → script_size src2 + 1 < fuel →
  AESCTRDec fuel src1 out keyAes keyHmac
  = AESCTRDec fuel src2 out keyAes keyHmac.
Proof.
  intros Ho1 Hc1 Ho2 Hc2 Hf1 Hf2.
  rewrite !AESCTRDec_refines by done. rewrite Hc1, Hc2.
  unfold dec_spec, stream_ciphertext, stream_tag, stream_body, stream_iv.
  reflexivity.
Qed.

(** C4, as stated, fails: a stream whose first byte is 2, not [V1], and
    which is otherwise the frame of ["hello"], is decrypted without an
    error and the plaintext is written. *)
Lemma AESCTRDec_accepts_unknown_version :
  x02 ≠ V1
  ∧ AESCTRDec 200 (bytes_reader tframe_v2) new_buffer tkey tkey
    = Ret (None, mkWriter thello None).
Proof. split; [discriminate|]. vm_compute. reflexivity. Qed.

(** *** A writer that accepts nothing *)

Lemma Write_full (p d : bytes) :
  (Write p (mkWriter d (Some 0))).2 = mkWriter d (Some 0).
Proof.
  unfold Write. cbn [w_room w_data]. case_decide as Hp; cbn [snd].
  - destruct p; [|simpl in Hp; lia]. by rewrite app_nil_r.
  - by rewrite take_0, app_nil_r.
Qed.

Lemma Write_full_error (p d : bytes) :
  p ≠ [] → (Write p (mkWriter d (Some 0))).1.2 = Some ErrNoSpace.
Proof.
  intros Hp. unfold Write. cbn [w_room w_data].
  rewrite decide_False; [done|]. destruct p; [done|simpl; lia].
Qed.

Lemma MultiWrite_full (p d : bytes) (h : Hmac) :
  ∃ n e h', MultiWrite p (mkWriter d (Some 0)) h
            = (n, e, mkWriter d (Some 0), h').
Proof.
  unfold MultiWrite. pose proof (Write_full p d) as Hw.
  destruct (Write p (mkWriter d (Some 0))) as [[n e] w]. simpl in Hw. subst w.
  destruct e; [eauto|]. case_decide; eauto.
Qed.

Lemma enc_loop_full :
  ∀ (fuel : nat) (src : Reader) (ctr : Stream) (d0 : bytes) (h : Hmac),
    orderly src = true → length src + length (content src) < fuel →
    ∃ h', enc_loop fuel src ctr (mkWriter d0 (Some 0)) h
          = Ret (None, mkWriter d0 (Some 0), h').
Proof.
  induction fuel as [|fuel IH]; intros src ctr d0 h Ho Hf; [lia|].
  cbn [enc_loop].
  destruct (Read BUFFER_SIZE src) as [[d e] r'] eqn:HR.
  apply Read_orderly in HR as (Hd & Hc & Ho1 & Hl & Hcase);
    [|done|apply BUFFER_SIZE_pos].
  destruct Hcase as [(-> & Hne & _)|(-> & ->)].
  - cbn [fatal]. rewrite is_eof_None.
    rewrite decide_True by (destruct d; [done|simpl; lia]).
    rewrite XORKeyStream_make, run_bind_Ret.
    destruct (MultiWrite_full (xor_stream (st_ks ctr) (st_pos ctr) d) d0 h)
      as (n & e & h' & ->).
    rewrite run_bind_Ret. apply IH; [done|].
    rewrite Hc, length_app in Hf.
    assert (0 < length d) by (destruct d; [done|simpl; lia]). lia.
  - cbn [fatal]. rewrite is_eof_EOF.
    destruct (decide (length d ≠ 0)) as [Hn|Hn].
    + rewrite XORKeyStream_make, run_bind_Ret.
      destruct (MultiWrite_full (xor_stream (st_ks ctr) (st_pos ctr) d) d0 h)
        as (n & e & h' & ->).
      rewrite run_bind_Ret. eauto.
    + rewrite run_bind_Ret. eauto.
Qed.

(** C6: the code at failing inputs.  The output accepts no byte, so its
    first [Write] (the version byte) already fails; for every orderly
    input [AESCTREnc] nevertheless returns [nil]. *)
Theorem AESCTREnc_drops_write_error `{Primitives} (fuel : nat)
    (rnd src : Reader) (d0 keyAes keyHmac : bytes) :
  valid_aes_key keyAes →
  orderly rnd = true → IV_SIZE ≤ length (content rnd) → length rnd < fuel →
  orderly src = true → script_size src < fuel →
  (Write [V1] (mkWriter d0 (Some 0))).1.2 = Some ErrNoSpace
  ∧ AESCTREnc fuel rnd src (mkWriter d0 (Some 0)) keyAes keyHmac
    = Ret (None, mkWriter d0 (Some 0)).
Proof.
  intros Hk Hor Hiv Hfr Ho Hf. rewrite script_size_orderly in Hf by done.
  split; [by apply Write_full_error|].
  unfold AESCTREnc.
  destruct (ReadFull_enough fuel IV_SIZE rnd Hor Hfr Hiv) as (r' & Heq & _).
  rewrite Heq, run_bind_Ret.
  set (iv := take IV_SIZE (content rnd)).
  assert (Hl : length iv = IV_SIZE) by (unfold iv; rewrite length_take; lia).
  rewrite copy_full by (by rewrite length_make).
  rewrite NewCipher_valid by done.
  unfold NewCTR. rewrite decide_True by done. rewrite run_bind_Ret.
  pose proof (Write_full [V1] d0) as Hw.
  destruct (Write [V1] (mkWriter d0 (Some 0))) as [[n e] w].
  simpl in Hw. subst w.
  destruct (MultiWrite_full iv d0 (hmac_New keyHmac)) as (n1 & e1 & h1 & ->).
  destruct (enc_loop_full fuel src
              (mkStream (ctr_keystream (blk_key (mkBlock keyAes)) iv) 0)
              d0 h1 Ho Hf) as (h2 & ->).
  rewrite run_bind_Ret.
  pose proof (Write_full (hmac_Sum h2) d0) as Hw2.
  destruct (Write (hmac_Sum h2) (mkWriter d0 (Some 0))) as [[n2 e2] w2].
  simpl in Hw2. by subst w2.
Qed.

(** *** The theorems at a concrete input *)

Lemma AESCTR_round_trip_witness :
  ∃ stream,
    AESCTREnc 200 trnd (bytes_reader thello) new_buffer tkey tkey
    = Ret (None, mkWriter stream None)
    ∧ ∀ (fuel' : nat) (rd : Reader),
        orderly rd = true → content rd = stream → script_size rd + 1 < fuel' →
        AESCTRDec fuel' rd new_buffer tkey tkey
        = Ret (None, mkWriter thello None).
Proof.
  apply (AESCTR_round_trip 200 trnd (bytes_reader thello) thello tkey tkey).
  - left; reflexivity.
  - reflexivity.
  - vm_compute; lia.
  - vm_compute; lia.
  - reflexivity.
  - reflexivity.
  - vm_compute; lia.
Defined.

Lemma AESCTREnc_output_layout_witness :
  ∃ iv c tag,
    AESCTREnc 200 trnd (bytes_reader thello) (mkWriter [] None) tkey tkey
    = Ret (None, mkWriter ([] ++ [V1] ++ iv ++ c ++ tag) None)
    ∧ length iv = 16 ∧ length c = length (content (bytes_reader thello))
    ∧ length tag = 64
    ∧ length ([V1] ++ iv ++ c ++ tag)
      = 1 + 16 + length (content (bytes_reader thello)) + 64.
Proof.
  apply (AESCTREnc_output_layout 200 trnd (bytes_reader thello) [] tkey tkey).
  - left; reflexivity.
  - reflexivity.
  - vm_compute; lia.
  - vm_compute; lia.
  - reflexivity.
  - vm_compute; lia.
Defined.

Lemma AESCTRDec_tag_check_witness :
  ∃ e,
    AESCTRDec 200 (bytes_reader tframe) new_buffer tkey tkey
    = Ret (e, (Write (xor_stream (ctr_keystream tkey tiv) 0 tcipher)
                     new_buffer).2)
    ∧ (e = None ↔ ttag = hmac_sha512 tkey (tiv ++ tcipher))
    ∧ (ttag ≠ hmac_sha512 tkey (tiv ++ tcipher) → e = Some ErrInvalidHMAC).
Proof.
  apply (AESCTRDec_tag_check 200 (bytes_reader tframe) new_buffer tkey tkey
           V1 tiv tcipher ttag).
  - left; reflexivity.
  - reflexivity.
  - reflexivity.
  - reflexivity.
  - reflexivity.
  - vm_compute; lia.
Defined.

Lemma AESCTRDec_truncated_witness :
  AESCTRDec 200 (bytes_reader tframe_cut) new_buffer tkey tkey
  = Ret (Some ErrNotEnoughLeft, new_buffer)
  ∧ ErrNotEnoughLeft ≠ ErrInvalidHMAC.
Proof.
  apply (AESCTRDec_truncated 200 (bytes_reader tframe_cut) new_buffer tkey tkey
           V1 tiv (take 13 (tcipher ++ ttag))).
  - left; reflexivity.
  - reflexivity.
  - reflexivity.
  - reflexivity.
  - vm_compute; lia.
  - vm_compute; lia.
Defined.

Lemma AESCTRDec_ignores_version_witness :
  AESCTRDec 200 (bytes_reader tframe) new_buffer tkey tkey
  = AESCTRDec 200 (bytes_reader tframe_v2) new_buffer tkey tkey.
Proof.
  apply (AESCTRDec_ignores_version 200 (bytes_reader tframe)
           (bytes_reader tframe_v2) new_buffer tkey tkey V1 x02 (drop 1 tframe)).
  - reflexivity.
  - reflexivity.
  - reflexivity.
  - reflexivity.
  - vm_compute; lia.
  - vm_compute; lia.
Defined.

Lemma AESCTREnc_drops_write_error_witness :
  (Write [V1] (mkWriter [] (Some 0))).1.2 = Some ErrNoSpace
  ∧ AESCTREnc 200 trnd (bytes_reader thello) (mkWriter [] (Some 0)) tkey tkey
    = Ret (None, mkWriter [] (Some 0)).
Proof.
  apply (AESCTREnc_drops_write_error 200 trnd (bytes_reader thello) [] tkey tkey).
  - left; reflexivity.
  - reflexivity.
  - vm_compute; lia.
  - vm_compute; lia.
  - reflexivity.
  - vm_compute; lia.
Defined.

(** ** kit/suite/suit.go: the claims *)

Lemma decide_refl {A : Type} `{EqDecision A} {B : Type} (a : A) (x y : B) :
  (if decide (a = a) then x else y) = x.
Proof. by rewrite decide_True. Qed.

(** C10. [BlockDecrypt] with [Aes256Gcm] on a ciphertext shorter than the
    salt does not return: the slice expression
    [ciphertext[len(ciphertext)-SaltLen:]] panics. *)
Theorem BlockDecrypt_short_panics `{Suite.Lib} (ciphertext passphrase : bytes) :
  length ciphertext < Suite.SaltLen →
  Suite.BlockDecrypt ciphertext passphrase Suite.Aes256Gcm
  = Panic slice_bounds.
Proof.
  intros Hlen. unfold Suite.BlockDecrypt. rewrite decide_refl.
  unfold slice_from, slice. by rewrite decide_False by lia.
Qed.

(** With the precondition the call returns. *)
Lemma BlockDecrypt_long_returns `{Suite.Lib} (ciphertext passphrase : bytes) :
  Suite.SaltLen ≤ length ciphertext →
  ∃ r, Suite.BlockDecrypt ciphertext passphrase Suite.Aes256Gcm = Ret r.
Proof.
  intros Hlen. unfold Suite.BlockDecrypt. rewrite decide_refl.
  unfold slice_from, slice_to, slice.
  rewrite !decide_True by lia. cbn [of_slice]. rewrite run_bind_Ret.
  destruct (Suite.DeriveKey _ _ _ _) as [[k s] e]. rewrite run_bind_Ret.
  destruct (Suite.AESGCMDecrypt _ _ _); eauto.
Qed.

Lemma Read_bytes_reader_prefix (p body : bytes) :
  p ≠ [] →
  Read (length p) (bytes_reader (p ++ body)) = (p, None, bytes_reader body).
Proof.
  intros Hp. unfold bytes_reader.
  destruct (p ++ body) as [|x l] eqn:E.
  { apply app_eq_nil in E as [? _]. done. }
  rewrite <- E. unfold Read. destruct body as [|y body].
  - rewrite app_nil_r. by rewrite decide_True by lia.
  - rewrite decide_False by (rewrite length_app; simpl; lia).
    by rewrite take_app_length, drop_app_length.
Qed.

(** C8. The RC4 path.  [StreamDecrypt] first reads a tag of
    [sha256.Size] bytes; when it differs from the hash of the passphrase
    the result is "wrong passphrase", nothing has been written and the
    source stands right behind the tag; when it is equal the result is
    that of [RC4KeyStream] on the rest.  [StreamEncrypt] writes the hash
    before the body, so a stream it wrote passes the check. *)
Theorem StreamDecrypt_RC4_tag_first `{Suite.Lib} (src src' : Reader)
    (dest : Writer) (passphrase d : bytes) :
  Read Suite.sha256_Size src = (d, None, src') →
  (copy (make Suite.sha256_Size) d ≠ Suite.SHA256 passphrase →
   Suite.StreamDecrypt src dest passphrase Suite.RC4
   = (Some Suite.ErrWrongPassphrase, src', dest))
  ∧ (copy (make Suite.sha256_Size) d = Suite.SHA256 passphrase →
     Suite.StreamDecrypt src dest passphrase Suite.RC4
     = Suite.RC4KeyStream src' dest passphrase)
  ∧ (∀ (rnd d0 : bytes) (body : Reader),
       Suite.StreamEncrypt rnd body (mkWriter d0 None) passphrase Suite.RC4
       = Suite.RC4KeyStream body
           (mkWriter (d0 ++ Suite.SHA256 passphrase) None) passphrase)
  ∧ (∀ body : bytes,
       Suite.StreamDecrypt (bytes_reader (Suite.SHA256 passphrase ++ body))
                           dest passphrase Suite.RC4
       = Suite.RC4KeyStream (bytes_reader body) dest passphrase).
Proof.
  intros HR.
  assert (Hne : Suite.Aes256Ctr ≠ Suite.RC4) by discriminate.
  split; [|split; [|split]].
  - intros Hd. unfold Suite.StreamDecrypt.
    rewrite decide_False by (intros E; by apply Hne).
    rewrite decide_refl, HR.
    by rewrite bool_decide_eq_false_2 by congruence.
  - intros Hd. unfold Suite.StreamDecrypt.
    rewrite decide_False by (intros E; by apply Hne).
    rewrite decide_refl, HR.
    by rewrite bool_decide_eq_true_2 by congruence.
  - intros rnd d0 body. unfold Suite.StreamEncrypt.
    rewrite decide_False by (intros E; by apply Hne).
    by rewrite decide_refl, Write_buffer.
  - intros body. unfold Suite.StreamDecrypt.
    rewrite decide_False by (intros E; by apply Hne).
    rewrite decide_refl.
    pose proof (Suite.SHA256_size passphrase) as Hs.
    unfold Suite.sha256_Size. rewrite <- Hs at 1.
    rewrite Read_bytes_reader_prefix
      by (intros E; rewrite E in Hs; discriminate).
    rewrite <- Hs, copy_make.
    by rewrite bool_decide_eq_true_2 by done.
Qed.

Lemma StreamDecrypt_RC4_tag_first_witness :
  (copy (make Suite.sha256_Size) (take 32 trc4_stream) ≠ Suite.SHA256 tpass →
   Suite.StreamDecrypt (bytes_reader trc4_stream) new_buffer tpass Suite.RC4
   = (Some Suite.ErrWrongPassphrase, bytes_reader (drop 32 trc4_stream),
      new_buffer))
  ∧ (copy (make Suite.sha256_Size) (take 32 trc4_stream) = Suite.SHA256 tpass →
     Suite.StreamDecrypt (bytes_reader trc4_stream) new_buffer tpass Suite.RC4
     = Suite.RC4KeyStream (bytes_reader (drop 32 trc4_stream)) new_buffer tpass)
  ∧ (∀ (rnd d0 : bytes) (body : Reader),
       Suite.StreamEncrypt rnd body (mkWriter d0 None) tpass Suite.RC4
       = Suite.RC4KeyStream body
           (mkWriter (d0 ++ Suite.SHA256 tpass) None) tpass)
  ∧ (∀ body : bytes,
       Suite.StreamDecrypt (bytes_reader (Suite.SHA256 tpass ++ body))
                           new_buffer tpass Suite.RC4
       = Suite.RC4KeyStream (bytes_reader body) new_buffer tpass).
Proof.
  apply (StreamDecrypt_RC4_tag_first (bytes_reader trc4_stream)
           (bytes_reader (drop 32 trc4_stream)) new_buffer tpass
           (take 32 trc4_stream)).
  vm_compute. reflexivity.
Defined.

Lemma BlockDecrypt_short_panics_witness :
  Suite.BlockDecrypt [x01; x02; x03] tpass Suite.Aes256Gcm = Panic slice_bounds.
Proof.
  apply (BlockDecrypt_short_panics [x01; x02; x03] tpass).
  vm_compute. lia.
Defined.

(** ** kit/rnm.go: the claims *)

Lemma slice_from_app (a b : bytes) :
  slice_from (a ++ b) (Z.of_nat (length (a ++ b)) - Z.of_nat (length b))
  = Some b.
Proof.
  unfold slice_from. rewrite length_app.
  rewrite <- Nat2Z.inj_sub by lia.
  rewrite slice_Some by (rewrite ?length_app; lia).
  replace (length a + length b - length b) with (length a) by lia.
  rewrite drop_app_length. f_equal. apply take_ge. lia.
Qed.

(** [Recover] of kit/rnm.go, read from its results: whenever it returns,
    either nothing was renamed, an error is returned and the store is
    unchanged, or the file was renamed, [nil] is returned and the entry of
    the id is gone from the store. *)
Lemma Recover_tagged `{Kit.Lib} (fs : FS) (source : string)
    (passphrase : bytes) (db : Kit.DataBase) :
  HasPrefix (Path.Name source) Kit.RnmVersion = true →
  ∀ e fs' db',
    Kit.Recover fs source passphrase db = Ret (e, fs', db') →
    (e ≠ None ∧ fs' = fs ∧ db' = db)
    ∨ (e = None ∧ (∃ new, os_Rename fs source new = (None, fs'))
       ∧ db' = delete (Path.Name source) db
       ∧ db' !! Path.Name source = None).
Proof.
  intros Htag. unfold Kit.Recover, Kit.db_Get. rewrite Htag. cbn [negb].
  intros e fs' db' HR.
  destruct (db !! Path.Name source) as [fileName|];
    [|inversion HR; subst; by left].
  destruct (Kit.base64_DecodeString fileName) as [e0|ciphertext];
    [inversion HR; subst; by left|].
  destruct (slice_from ciphertext _) as [salt|]; [|discriminate].
  cbn [of_slice] in HR. rewrite run_bind_Ret in HR.
  destruct (Kit.DeriveKey _ _ _ _) as [[dk s0] [e0|]];
    [inversion HR; subst; by left|].
  destruct (Kit.GCMDecrypt _ _ _) as [e0|plaintext];
    [inversion HR; subst; by left|].
  destruct (os_Rename fs source _) as [[e0|] fs1] eqn:HRen.
  - inversion HR; subst. left. repeat split; [done|].
    unfold os_Rename in HRen. destruct (fs !! source); by inversion HRen.
  - unfold Kit.db_Delete in HR. inversion HR; subst. right.
    repeat split; eauto. apply lookup_delete_eq.
Qed.

(** The other copy of [Recover], read from its results: the store it
    returns is the store it was given. *)
Lemma Recover_old_keeps_entry `{Kit.Lib} (fs : FS) (source : string)
    (passphrase : bytes) (db : Kit.DataBase) :
  HasPrefix (Path.Name source) Kit.RnmVersion = true →
  ∀ e fs' db',
    KitOld.Recover fs source passphrase db = Ret (e, fs', db') → db' = db.
Proof.
  intros Htag. unfold KitOld.Recover, Kit.db_Get. rewrite Htag. cbn [negb].
  intros e fs' db' HR.
  destruct (db !! Path.Name source) as [fileName|]; [|by inversion HR].
  destruct (Kit.base64_DecodeString fileName) as [e0|ciphertext];
    [by inversion HR|].
  destruct (slice_from ciphertext _) as [salt|]; [|discriminate].
  cbn [of_slice] in HR. rewrite run_bind_Ret in HR.
  destruct (Kit.DeriveKey _ _ _ _) as [[dk s0] [e0|]]; [by inversion HR|].
  destruct (Kit.GCMDecrypt _ _ _) as [e0|plaintext]; [by inversion HR|].
  destruct (os_Rename fs source _) as [e0 fs1]. by inversion HR.
Qed.

(** C9. The two copies of [Recover] on a file whose name carries
    [RnmVersion].  When the id is not in the store, [Recover] of
    kit/rnm.go returns "ID not found in Database"; the other copy returns
    [nil].  When the store holds an entry for the id that decodes to a
    box ending with the salt, the key derivation succeeds, the box opens
    to a file name and the source exists, both copies rename the file to
    that name next to the source and return [nil]; [Recover] of
    kit/rnm.go has deleted the entry from the store, the other copy has
    left the store as it was, with the entry in it. *)
Theorem Recover_copies_differ `{Kit.Lib} (fs : FS) (source : string)
    (passphrase : bytes) (db : Kit.DataBase) :
  HasPrefix (Path.Name source) Kit.RnmVersion = true →
  let id := Path.Name source in
  (db !! id = None →
   Kit.Recover fs source passphrase db = Ret (Some Kit.ErrIDNotFound, fs, db)
   ∧ KitOld.Recover fs source passphrase db = Ret (None, fs, db))
  ∧ (∀ (enc : string) (body salt dk salt' plaintext c : bytes),
       db !! id = Some enc →
       Kit.base64_DecodeString enc = inr (body ++ salt) →
       length salt = Kit.SaltLen →
       Kit.DeriveKey [] passphrase (Some salt) Kit.KeyLen = (dk, salt', None) →
       Kit.GCMDecrypt (body ++ salt) dk salt = inr plaintext →
       is_name (Kit.string_of_bytes plaintext) = true →
       fs !! source = Some c →
       let fs' :=
         <[(Path.BasePath source +:+ Kit.string_of_bytes plaintext)%string
           := c]> (delete source fs) in
       Kit.Recover fs source passphrase db = Ret (None, fs', delete id db)
       ∧ delete id db !! id = None
       ∧ KitOld.Recover fs source passphrase db = Ret (None, fs', db)
       ∧ db !! id = Some enc).
Proof.
  intros Htag id. subst id. unfold Kit.Recover, KitOld.Recover, Kit.db_Get.
  rewrite Htag. cbn [negb]. split.
  - intros Hnone. by rewrite Hnone.
  - intros enc body salt dk salt' plaintext c Hdb Hb64 Hsalt Hdk Hopen _ Hsrc.
    rewrite Hdb, Hb64. rewrite <- Hsalt, slice_from_app.
    cbn [of_slice]. rewrite !run_bind_Ret, Hdk, Hopen.
    unfold os_Rename, Kit.db_Delete. rewrite Hsrc.
    split; [done|]. split; [apply lookup_delete_eq|done].
Qed.

Lemma Recover_copies_differ_witness :
  (@Kit.Recover toy_kit_salted tfs_moved tmoved tpass ∅
   = Ret (Some Kit.ErrIDNotFound, tfs_moved, ∅)
   ∧ @KitOld.Recover toy_kit_salted tfs_moved tmoved tpass ∅
     = Ret (None, tfs_moved, ∅))
  ∧ (@Kit.Recover toy_kit_salted tfs_moved tmoved tpass tdb_moved
     = Ret (None, tfs_notes, ∅)
     ∧ @KitOld.Recover toy_kit_salted tfs_moved tmoved tpass tdb_moved
       = Ret (None, tfs_notes, tdb_moved)
     ∧ tdb_moved !! Path.Name tmoved
       = Some (string_of_list_byte (tbox ++ tsalt))).
Proof.
  split.
  - apply (@Recover_copies_differ toy_kit_salted tfs_moved tmoved tpass ∅);
      vm_compute; reflexivity.
  - pose proof (proj2 (@Recover_copies_differ toy_kit_salted tfs_moved tmoved
                         tpass tdb_moved eq_refl)
                  (string_of_list_byte (tbox ++ tsalt)) tbox tsalt tdk tsalt
                  (Rnm.bytes_of_string tname) thello) as Hw.
    cbv zeta in Hw.
    destruct Hw as (H1 & _ & H2 & H3); try (vm_compute; reflexivity).
    split; [|split; [|exact H3]].
    + rewrite H1. vm_compute. reflexivity.
    + rewrite H2. vm_compute. reflexivity.
Defined.

(** ** The file-level operations: the claims *)

Lemma list_ascii_of_string_app (a b : string) :
  list_ascii_of_string (a +:+ b)
  = list_ascii_of_string a ++ list_ascii_of_string b.
Proof. induction a as [|c a IH]; simpl; [done|]. by rewrite IH. Qed.

Lemma string_length_app (a b : string) :
  String.length (a +:+ b) = String.length a + String.length b.
Proof. induction a as [|c a IH]; simpl; [done|]. by rewrite IH. Qed.

Lemma length_string_of_list_ascii (l : list ascii) :
  String.length (string_of_list_ascii l) = length l.
Proof. induction l as [|c l IH]; simpl; [done|]. by rewrite IH. Qed.

Lemma os_Create_file (fs : FS) (name : string) :
  names_file name = true → os_Create fs name = inr (<[name := []]> fs).
Proof.
  intros Hn. unfold os_Create. rewrite Hn.
  destruct (decide (name = ""%string)) as [->|]; [done|done].
Qed.

(** A name that ends with ".skt" is a file's: [os.Create] does not fail
    on the destination of an encrypt operation. *)
Lemma names_file_append_skt (p : string) :
  names_file (p +:+ Kit.sktExt) = true.
Proof.
  unfold names_file, last_elem.
  rewrite list_ascii_of_string_app, rev_app_distr.
  set (f := fun c : ascii => negb (is_sep c)).
  set (l := rev (list_ascii_of_string p)).
  change (take_while f (rev (list_ascii_of_string Kit.sktExt) ++ l))
    with ("t"%char :: "k"%char :: "s"%char :: "."%char :: take_while f l).
  set (e := string_of_list_ascii _).
  assert (Hlen : 4 ≤ String.length e).
  { unfold e. rewrite length_string_of_list_ascii, length_rev. simpl. lia. }
  rewrite !bool_decide_eq_false_2; [done|..];
    intros E; rewrite E in Hlen; simpl in Hlen; lia.
Qed.

Lemma beforeEncrypt_open (fs : FS) (filepath : string) (c : bytes) :
  fs !! filepath = Some c →
  Kit.beforeEncrypt fs filepath
  = inr (Kit.mkFile filepath (bytes_reader c),
         (filepath +:+ Kit.sktExt)%string,
         <[(filepath +:+ Kit.sktExt)%string := []]> fs).
Proof.
  intros Hc. unfold Kit.beforeEncrypt, os_Open. rewrite Hc.
  by rewrite os_Create_file by apply names_file_append_skt.
Qed.

Lemma beforeDecrypt_open (fs : FS) (filepath : string) (version rest : bytes) :
  version ≠ [] → fs !! filepath = Some (version ++ rest) →
  names_file (TrimSuffix filepath Kit.sktExt) = true →
  Kit.beforeDecrypt fs filepath version
  = inr (Kit.mkFile filepath (bytes_reader rest),
         TrimSuffix filepath Kit.sktExt,
         <[TrimSuffix filepath Kit.sktExt := []]> fs).
Proof.
  intros Hv Hc Hn. unfold Kit.beforeDecrypt, os_Open. rewrite Hc.
  unfold Kit.versionCheck, Kit.file_Read. cbn [Kit.f_rd Kit.f_name].
  rewrite Read_bytes_reader_prefix by done.
  rewrite copy_make. rewrite bool_decide_eq_true_2 by done. cbn [negb].
  by rewrite os_Create_file.
Qed.

(** When the destination's name cannot be a file's, nothing is created
    and the error of [os.Create] is what the caller gets. *)
Lemma beforeDecrypt_no_file (fs : FS) (filepath : string)
    (version rest : bytes) :
  version ≠ [] → fs !! filepath = Some (version ++ rest) →
  names_file (TrimSuffix filepath Kit.sktExt) = false →
  Kit.beforeDecrypt fs filepath version
  = inl (if decide (TrimSuffix filepath Kit.sktExt = ""%string)
         then ErrNotExist else ErrIsDir).
Proof.
  intros Hv Hc Hn. unfold Kit.beforeDecrypt, os_Open. rewrite Hc.
  unfold Kit.versionCheck, Kit.file_Read. cbn [Kit.f_rd Kit.f_name].
  rewrite Read_bytes_reader_prefix by done.
  rewrite copy_make. rewrite bool_decide_eq_true_2 by done. cbn [negb].
  unfold os_Create. rewrite Hn. by case_decide.
Qed.

Lemma file_Read_bytes_reader (name : string) (c : bytes) (n : nat) :
  Kit.file_Read (Kit.mkFile name (bytes_reader c)) n
  = (copy (make n) (take n c), Kit.mkFile name (bytes_reader (drop n c))).
Proof.
  unfold Kit.file_Read. cbn [Kit.f_rd Kit.f_name].
  destruct c as [|x c].
  - cbn [bytes_reader Read]. by rewrite take_nil, drop_nil.
  - cbn [bytes_reader Read]. case_decide as Hl.
    + by rewrite take_ge, drop_ge by done.
    + destruct (drop n (x :: c)) as [|y l] eqn:E; [|done].
      apply (f_equal length) in E. rewrite length_drop in E.
      simpl in *. lia.
Qed.

Lemma make_len_ok (n : N) :
  (n ≤ Kit.maxAlloc)%N → Kit.make_len n = Ret (N.to_nat n).
Proof. intros Hn. unfold Kit.make_len. by rewrite decide_True. Qed.

(** The eight bytes of the length and the bytes it announces, read from
    the front of what is left of an RSA container. *)
Lemma file_Read_psize (name : string) (psize rest : bytes) :
  length psize = Kit.pSizeLen →
  Kit.file_Read (Kit.mkFile name (bytes_reader (psize ++ rest))) Kit.pSizeLen
  = (psize, Kit.mkFile name (bytes_reader rest)).
Proof.
  intros Hl. rewrite file_Read_bytes_reader. rewrite <- Hl.
  by rewrite take_app_length, drop_app_length, copy_make.
Qed.

(** C7: the code at failing inputs.  When the RSA step fails,
    [RSAFileEncrypt] and [RSAFileDecrypt] return its error with the
    destination already created: it is still there, empty, when they
    return.  [plain] is a file to encrypt; [sealed] is a container whose
    name without ".skt" is a file's and whose announced length [make]
    accepts, so that the destination is created and the RSA step is
    reached. *)
Theorem RSAFile_failure_keeps_destination `{Kit.Lib} (rnd : bytes) (fs : FS)
    (plain sealed keyfile : string) (delete : bool)
    (key c psize rest : bytes) (e e' : error) :
  fs !! keyfile = Some key →
  Ext plain ≠ Kit.sktExt → fs !! plain = Some c →
  Kit.RSAEncrypt rnd key = inl e →
  Ext sealed = Kit.sktExt →
  names_file (TrimSuffix sealed Kit.sktExt) = true →
  fs !! sealed = Some (Kit.SKTRSAVersion ++ psize ++ rest) →
  length psize = Kit.pSizeLen → (Uint64 psize ≤ Kit.maxAlloc)%N →
  Kit.RSADecrypt (copy (make (N.to_nat (Uint64 psize)))
                       (take (N.to_nat (Uint64 psize)) rest)) key = inl e' →
  let dest_enc := (plain +:+ Kit.sktExt)%string in
  let dest_dec := TrimSuffix sealed Kit.sktExt in
  Kit.RSAFileEncrypt rnd fs plain keyfile delete
  = (Some e, <[dest_enc := []]> fs)
  ∧ <[dest_enc := []]> fs !! dest_enc = Some []
  ∧ Kit.RSAFileDecrypt fs sealed keyfile delete
    = Ret (Some e', <[dest_dec := []]> fs)
  ∧ <[dest_dec := []]> fs !! dest_dec = Some [].
Proof.
  intros Hkey Hext Hsrc Henc Hext' Hname Hsealed Hlen Hmax Hdec dest_enc dest_dec.
  split; [|split; [apply lookup_insert_eq|split; [|apply lookup_insert_eq]]].
  - unfold Kit.RSAFileEncrypt, os_Open at 1.
    rewrite Hkey. rewrite decide_False by done.
    by rewrite (beforeEncrypt_open _ _ _ Hsrc), Henc.
  - unfold Kit.RSAFileDecrypt, os_Open at 1.
    rewrite Hkey. rewrite decide_False by (intros Hn; by apply Hn).
    assert (Hv : Kit.SKTRSAVersion ≠ []) by discriminate.
    rewrite (beforeDecrypt_open _ _ _ _ Hv Hsealed Hname).
    rewrite file_Read_psize by done.
    rewrite make_len_ok, run_bind_Ret by done.
    rewrite file_Read_bytes_reader. by rewrite Hdec.
Qed.

(** The sibling path: when the stream transform fails, [AESFileEncrypt]
    removes the destination before it returns the error. *)
Lemma AESFileEncrypt_failure_removes_destination `{Kit.Lib} (fs : FS)
    (filepath : string) (passphrase c : bytes) (delete : bool) :
  Ext filepath ≠ Kit.sktExt → fs !! filepath = Some c →
  ∀ e fs',
    Kit.AESFileEncrypt fs filepath passphrase delete = (Some e, fs') →
    fs' !! (filepath +:+ Kit.sktExt)%string = None.
Proof.
  intros Hext Hsrc e fs'. unfold Kit.AESFileEncrypt.
  rewrite decide_False by done. rewrite (beforeEncrypt_open _ _ _ Hsrc).
  destruct (Kit.StreamEnc _ _ _ _) as [[[e0|] r] w].
  - intros HR. inversion HR; subst. apply lookup_delete_eq.
  - intros HR. inversion HR.
Qed.

Lemma RSAFile_failure_keeps_destination_witness :
  Kit.RSAFileEncrypt tpass tfs "a.txt" "bad.pem" false
  = (Some ErrBadKey, <["a.txt.skt"%string := []]> tfs)
  ∧ <["a.txt.skt"%string := []]> tfs !! "a.txt.skt"%string = Some []
  ∧ Kit.RSAFileDecrypt tfs "b.skt" "bad.pem" false
    = Ret (Some ErrBadKey, <["b"%string := []]> tfs)
  ∧ <["b"%string := []]> tfs !! "b"%string = Some [].
Proof.
  apply (RSAFile_failure_keeps_destination tpass tfs "a.txt" "b.skt" "bad.pem"
           false [] thello (PutUint64 3) ([x01; x02; x03] ++ thello)
           ErrBadKey ErrBadKey).
  - vm_compute. reflexivity.
  - vm_compute. discriminate.
  - vm_compute. reflexivity.
  - reflexivity.
  - vm_compute. reflexivity.
  - vm_compute. reflexivity.
  - vm_compute. reflexivity.
  - vm_compute. reflexivity.
  - vm_compute. discriminate.
  - reflexivity.
Defined.

(** ** The model on concrete inputs *)

Example RSAFileDecrypt_bad_key :
  ∃ fs', Kit.RSAFileDecrypt tfs "b.skt" "bad.pem" false
         = Ret (Some ErrBadKey, fs')
         ∧ fs' !! "b"%string = Some [].
Proof. eexists. split; vm_compute; reflexivity. Qed.

Example RSAFileEncrypt_bad_key :
  (Kit.RSAFileEncrypt tpass tfs "a.txt" "bad.pem" false).1 = Some ErrBadKey
  ∧ (Kit.RSAFileEncrypt tpass tfs "a.txt" "bad.pem" false).2 !! "a.txt.skt"
    = Some [].
Proof. vm_compute. split; reflexivity. Qed.

Example Ext_skt : Ext "dir.d/b.skt" = ".skt" ∧ Ext "dir.d/b" = "".
Proof. split; reflexivity. Qed.

Example TrimSuffix_skt :
  TrimSuffix "b.skt" ".skt" = "b" ∧ TrimSuffix "b.txt" ".skt" = "b.txt".
Proof. split; reflexivity. Qed.

Example Name_BasePath :
  Path.Name tsource = tid ∧ Path.BasePath tsource = "dir/"
  ∧ Path.Name "a/b/" = "b" ∧ Path.Name "/" = "/" ∧ Path.Name "" = "."
  ∧ Path.BasePath "plain" = "".
Proof. repeat split; reflexivity. Qed.

Example Uint64_PutUint64 :
  PutUint64 258 = [x00; x00; x00; x00; x00; x00; x01; x02]
  ∧ Uint64 (PutUint64 258) = 258%N.
Proof. split; reflexivity. Qed.

Example frame_of_hello :
  length tframe = 1 + 16 + 5 + 64
  ∧ AESCTRDec 200 (bytes_reader tframe) new_buffer tkey tkey
    = Ret (None, mkWriter thello None).
Proof. vm_compute. split; reflexivity. Qed.

(** The same frame delivered in pieces of 1, 20 and 65 bytes, the last
    with [io.EOF] attached. *)
Example frame_in_pieces :
  AESCTRDec 200
    [(take 1 tframe, None); (take 20 (drop 1 tframe), None);
     (drop 21 tframe, Some EOF)]
    new_buffer tkey tkey
  = Ret (None, mkWriter thello None).
Proof. vm_compute. reflexivity. Qed.

(** One flipped tag byte. *)
Example frame_flipped_tag :
  AESCTRDec 200 (bytes_reader (take 85 tframe ++ [x00])) new_buffer tkey tkey
  = Ret (Some ErrInvalidHMAC, mkWriter thello None).
Proof. vm_compute. reflexivity. Qed.

Example empty_payload :
  AESCTREnc 200 trnd [] new_buffer tkey tkey
  = Ret (None, mkWriter (enc_frame tiv [] tkey tkey) None)
  ∧ length (enc_frame tiv [] tkey tkey) = 1 + 16 + 64
  ∧ AESCTRDec 200 (bytes_reader (enc_frame tiv [] tkey tkey)) new_buffer
              tkey tkey
    = Ret (None, new_buffer).
Proof. vm_compute. repeat split; reflexivity. Qed.

(** * Further properties *)

(** ** kit/aes/ctr.go *)

(** X1. [AESCTRDec] sees the stream, not the way it arrives: two orderly
    readers that deliver the same bytes, in whatever pieces, give the same
    error and the same output. *)
Theorem AESCTRDec_chunking `{Primitives} (fuel1 fuel2 : nat)
    (rd1 rd2 : Reader) (out : Writer) (keyAes keyHmac : bytes) :
  orderly rd1 = true → orderly rd2 = true → content rd1 = content rd2 →
  script_size rd1 + 1 < fuel1 → script_size rd2 + 1 < fuel2 →
  AESCTRDec fuel1 rd1 out keyAes keyHmac
  = AESCTRDec fuel2 rd2 out keyAes keyHmac.
Proof.
  intros Ho1 Ho2 Hc Hf1 Hf2. rewrite !AESCTRDec_refines by done.
  by rewrite Hc.
Qed.

(** X2. [AESCTRDec] returns on every orderly stream, whatever its length and
    content and whatever the keys: no slice expression of the loop leaves
    its bounds and the loop ends. *)
Theorem AESCTRDec_returns `{Primitives} (fuel : nat) (rd : Reader)
    (out : Writer) (keyAes keyHmac : bytes) :
  orderly rd = true → script_size rd + 1 < fuel →
  ∃ e w, AESCTRDec fuel rd out keyAes keyHmac = Ret (e, w).
Proof.
  intros Ho Hf. rewrite AESCTRDec_refines by done.
  destruct (dec_spec _ _ _ _) as [e w]. eauto.
Qed.

(** X3. A stream that ends inside the header: [io.EOF] when the version byte
    is missing or is all there is, [io.ErrUnexpectedEOF] when the IV is cut
    short; nothing is written. *)
Theorem AESCTRDec_short_header `{Primitives} (fuel : nat) (rd : Reader)
    (out : Writer) (keyAes keyHmac : bytes) :
  orderly rd = true → script_size rd + 1 < fuel →
  length (content rd) < 1 + IV_SIZE →
  AESCTRDec fuel rd out keyAes keyHmac
  = Ret (Some (if decide (length (content rd) ≤ 1) then EOF
               else ErrUnexpectedEOF), out).
Proof.
  intros Ho Hf Hlen. rewrite AESCTRDec_refines by done. unfold dec_spec.
  destruct (decide (length (content rd) = 0)) as [H0|H0].
  { by rewrite decide_True by lia. }
  destruct (decide (length (content rd) = 1)) as [H1|H1].
  { by rewrite decide_True by lia. }
  rewrite decide_True by done. by rewrite decide_False by lia.
Qed.

(** X4. A key that is not 16, 24 or 32 bytes long: once version and IV have
    been read [AESCTRDec] returns [aes.KeySizeError] and writes nothing. *)
Theorem AESCTRDec_bad_key `{Primitives} (fuel : nat) (rd : Reader)
    (out : Writer) (keyAes keyHmac : bytes) :
  orderly rd = true → script_size rd + 1 < fuel →
  1 + IV_SIZE ≤ length (content rd) → ¬ valid_aes_key keyAes →
  AESCTRDec fuel rd out keyAes keyHmac
  = Ret (Some (KeySizeError (length keyAes)), out).
Proof.
  intros Ho Hf Hlen Hk. rewrite AESCTRDec_refines by done. unfold dec_spec.
  unfold IV_SIZE in *.
  rewrite !decide_False by lia. by rewrite NewCipher_invalid.
Qed.

(** X5. [AESCTREnc] with such a key returns [aes.KeySizeError] before it
    writes or reads anything but the IV. *)
Theorem AESCTREnc_bad_key `{Primitives} (fuel : nat) (rnd src : Reader)
    (out : Writer) (keyAes keyHmac : bytes) :
  orderly rnd = true → IV_SIZE ≤ length (content rnd) → length rnd < fuel →
  ¬ valid_aes_key keyAes →
  AESCTREnc fuel rnd src out keyAes keyHmac
  = Ret (Some (KeySizeError (length keyAes)), out).
Proof.
  intros Hor Hiv Hfr Hk. unfold AESCTREnc.
  destruct (ReadFull_enough fuel IV_SIZE rnd Hor Hfr Hiv) as (r' & Heq & _).
  rewrite Heq, run_bind_Ret. by rewrite NewCipher_invalid.
Qed.

(** X7. The output of [AESCTREnc] depends on the bytes of the input and of
    the IV, not on the pieces in which the input is read. *)
Theorem AESCTREnc_chunking `{Primitives} (fuel1 fuel2 : nat)
    (rnd src1 src2 : Reader) (d0 keyAes keyHmac : bytes) :
  valid_aes_key keyAes →
  orderly rnd = true → IV_SIZE ≤ length (content rnd) →
  length rnd < fuel1 → length rnd < fuel2 →
  orderly src1 = true → orderly src2 = true → content src1 = content src2 →
  script_size src1 < fuel1 → script_size src2 < fuel2 →
  AESCTREnc fuel1 rnd src1 (mkWriter d0 None) keyAes keyHmac
  = AESCTREnc fuel2 rnd src2 (mkWriter d0 None) keyAes keyHmac.
Proof.
  intros Hk Hor Hiv Hf1 Hf2 Ho1 Ho2 Hc Hs1 Hs2.
  rewrite !AESCTREnc_frame by done. by rewrite Hc.
Qed.

(** X8. [AESCTRDec] does not look at the result of [w.Write] either: into an
    output that accepts nothing, a well-formed frame of a non-empty
    plaintext is "decrypted" with a [nil] error and nothing written. *)
Theorem AESCTRDec_drops_write_error `{Primitives} (fuel : nat) (rd : Reader)
    (d0 iv plain keyAes keyHmac : bytes) :
  valid_aes_key keyAes → length iv = IV_SIZE → plain ≠ [] →
  orderly rd = true → content rd = enc_frame iv plain keyAes keyHmac →
  script_size rd + 1 < fuel →
  (Write plain (mkWriter d0 (Some 0))).1.2 = Some ErrNoSpace
  ∧ AESCTRDec fuel rd (mkWriter d0 (Some 0)) keyAes keyHmac
    = Ret (None, mkWriter d0 (Some 0)).
Proof.
  intros Hk Hiv Hp Ho Hc Hf. split; [by apply Write_full_error|].
  rewrite AESCTRDec_refines by done. rewrite Hc.
  rewrite dec_spec_enc_frame by done. by rewrite Write_full.
Qed.

Lemma fatal_not_EOF (e : error) : e ≠ EOF → fatal (Some e) = true.
Proof. by destruct e. Qed.

Lemma enc_loop_failing (e : error) :
  e ≠ EOF →
  ∀ (fuel : nat) (chunks : list bytes) (ctr : Stream) (d0 : bytes) (h : Hmac),
    Forall (fun d => d ≠ []) chunks →
    length chunks + length (concat chunks) < fuel →
    let c := xor_stream (st_ks ctr) (st_pos ctr) (concat chunks) in
    enc_loop fuel (failing_reader chunks e) ctr (mkWriter d0 None) h
    = Ret (Some e, mkWriter (d0 ++ c) None, hmac_Write c h).
Proof.
  intros He. pose proof BUFFER_SIZE_pos as HBS.
  induction fuel as [|fuel IH]; intros chunks ctr d0 h Hne Hf c; [lia|].
  subst c. cbn [enc_loop]. destruct chunks as [|d cs].
  - cbn [failing_reader map app Read].
    rewrite decide_True by (simpl; lia).
    rewrite fatal_not_EOF by done. simpl.
    by rewrite hmac_Write_nil, app_nil_r.
  - apply Forall_cons in Hne as [Hd Hcs].
    assert (Hld : 0 < length d) by (destruct d; [done|simpl; lia]).
    cbn [failing_reader map app Read concat] in *.
    rewrite length_app in Hf. cbn [length] in Hf.
    destruct (decide (length d ≤ BUFFER_SIZE)) as [Hle|Hgt].
    + cbn [fatal]. rewrite is_eof_None.
      rewrite decide_True by lia.
      rewrite XORKeyStream_make, run_bind_Ret, MultiWrite_buffer, run_bind_Ret.
      fold (failing_reader cs e). rewrite IH; [|done|lia].
      cbn [st_ks st_pos]. rewrite xor_stream_app, hmac_Write_app.
      by rewrite app_assoc.
    + cbn [fatal]. rewrite is_eof_None.
      assert (Hlt : length (take BUFFER_SIZE d) = BUFFER_SIZE)
        by (rewrite length_take; lia).
      rewrite decide_True by lia.
      rewrite XORKeyStream_make, run_bind_Ret, MultiWrite_buffer, run_bind_Ret.
      change ((drop BUFFER_SIZE d, None) :: map (fun d => (d, None)) cs
              ++ [([], Some e)])
        with (failing_reader (drop BUFFER_SIZE d :: cs) e).
      rewrite IH.
      * cbn [st_ks st_pos concat].
        assert (Hd' : d ++ concat cs
                      = take BUFFER_SIZE d ++ drop BUFFER_SIZE d ++ concat cs)
          by (by rewrite app_assoc, take_drop).
        rewrite Hd', (xor_stream_app _ _ (take BUFFER_SIZE d)).
        by rewrite hmac_Write_app, app_assoc.
      * apply Forall_cons. split; [|done].
        intros E. apply (f_equal length) in E. rewrite length_drop in E.
        simpl in E. lia.
      * cbn [concat length]. rewrite length_app, length_drop. lia.
Qed.

(** X9. A read error that is not [io.EOF] ends [AESCTREnc] with that error:
    the version byte, the IV and the ciphertext of what had been read are
    in the output, and no tag follows them. *)
Theorem AESCTREnc_read_error `{Primitives} (fuel : nat) (rnd : Reader)
    (chunks : list bytes) (e : error) (d0 keyAes keyHmac : bytes) :
  valid_aes_key keyAes →
  orderly rnd = true → IV_SIZE ≤ length (content rnd) → length rnd < fuel →
  Forall (fun d => d ≠ []) chunks → e ≠ EOF →
  length chunks + length (concat chunks) < fuel →
  AESCTREnc fuel rnd (failing_reader chunks e) (mkWriter d0 None)
            keyAes keyHmac
  = Ret (Some e,
         mkWriter (d0 ++ [V1] ++ take IV_SIZE (content rnd)
                      ++ enc_ciphertext (take IV_SIZE (content rnd))
                                        (concat chunks) keyAes) None).
Proof.
  intros Hk Hor Hiv Hfr Hne He Hf. unfold AESCTREnc.
  destruct (ReadFull_enough fuel IV_SIZE rnd Hor Hfr Hiv) as (r' & Heq & _).
  rewrite Heq, run_bind_Ret.
  set (iv := take IV_SIZE (content rnd)).
  assert (Hl : length iv = IV_SIZE) by (unfold iv; rewrite length_take; lia).
  rewrite copy_full by (by rewrite length_make).
  rewrite NewCipher_valid by done.
  unfold NewCTR. rewrite decide_True by done. rewrite run_bind_Ret.
  rewrite Write_buffer, MultiWrite_buffer.
  rewrite enc_loop_failing by done. rewrite run_bind_Ret.
  cbn [st_ks st_pos blk_key]. unfold enc_ciphertext.
  by rewrite <- !app_assoc.
Qed.

(** ** kit/suite/suit.go *)

(** X10. An algorithm that a function does not support gives
    "unsupported algorithm" and nothing else happens: no byte is read or
    written, and [BlockDecrypt] does not slice the ciphertext, however
    short it is. *)
Theorem Dispatch_unsupported `{Suite.Lib} `{SuiteRsa.Lib}
    (a : Suite.Algorithm) (rnd data passphrase key : bytes)
    (src : Reader) (dest : Writer) :
  a ≠ Suite.Aes256Gcm → a ≠ Suite.Aes256Ctr → a ≠ Suite.RC4 →
  a ≠ Suite.RSA →
  Suite.BlockEncrypt rnd data passphrase a = Ret (None, Some Suite.algoErr)
  ∧ Suite.BlockDecrypt data passphrase a = Ret (None, Some Suite.algoErr)
  ∧ Suite.StreamEncrypt rnd src dest passphrase a
    = (Some Suite.algoErr, src, dest)
  ∧ Suite.StreamDecrypt src dest passphrase a
    = (Some Suite.algoErr, src, dest)
  ∧ SuiteRsa.Sign data key a = (None, Some Suite.algoErr)
  ∧ SuiteRsa.Verify data data key a = (false, Some Suite.algoErr).
Proof.
  intros Hg Hc Hr Hs.
  unfold Suite.BlockEncrypt, Suite.BlockDecrypt, Suite.StreamEncrypt,
    Suite.StreamDecrypt, SuiteRsa.Sign, SuiteRsa.Verify.
  by rewrite !decide_False by done.
Qed.

Lemma slice_to_app (a b : bytes) :
  slice_to (a ++ b) (Z.of_nat (length (a ++ b)) - Z.of_nat (length b))
  = Some a.
Proof.
  rewrite length_app. rewrite <- Nat2Z.inj_sub by lia.
  rewrite slice_to_nat by (rewrite length_app; lia).
  replace (length a + length b - length b) with (length a) by lia.
  by rewrite take_app_length.
Qed.

(** X11. Block round trip.  When the key derivation gives the same key for
    the salt it drew, and the AEAD opens what it sealed, [BlockDecrypt]
    returns the plaintext from the output of [BlockEncrypt]: the salt is
    appended to the sealed box and split off again at the same place. *)
Theorem Block_round_trip `{Suite.Lib} (rnd plaintext passphrase : bytes)
    (k salt sealed : bytes) (e1 e2 : option error) (salt2 : bytes) :
  Suite.DeriveKey rnd passphrase None 32 = (k, salt, e1) →
  length salt = Suite.SaltLen →
  Suite.DeriveKey [] passphrase (Some salt) 32 = (k, salt2, e2) →
  Suite.AESGCMEncrypt plaintext k salt = inr sealed →
  Suite.AESGCMDecrypt sealed k salt = inr plaintext →
  Suite.BlockEncrypt rnd plaintext passphrase Suite.Aes256Gcm
  = Ret (Some (sealed ++ salt), None)
  ∧ Suite.BlockDecrypt (sealed ++ salt) passphrase Suite.Aes256Gcm
    = Ret (Some plaintext, None).
Proof.
  intros Hd Hs Hd2 Henc Hdec. split.
  - unfold Suite.BlockEncrypt. rewrite decide_refl. by rewrite Hd, Henc.
  - unfold Suite.BlockDecrypt. rewrite decide_refl. rewrite <- Hs.
    rewrite slice_from_app, slice_to_app. cbn [of_slice].
    rewrite run_bind_Ret, Hd2, run_bind_Ret. by rewrite Hdec.
Qed.

(** X12. The AES-CTR path frames the stream with the salt: [StreamEncrypt]
    writes the salt of the derived key before the cipher runs, and
    [StreamDecrypt], reading a stream that starts with a salt, runs the
    cipher on the rest with the key derived from that salt. *)
Theorem Stream_salt_framing `{Suite.Lib} (rnd passphrase k salt d0 : bytes)
    (e1 : option error) (src : Reader) (dest : Writer) (body : bytes) :
  Suite.DeriveKey rnd passphrase None 32 = (k, salt, e1) →
  length salt = Suite.SaltLen → salt ≠ [] →
  Suite.StreamEncrypt rnd src (mkWriter d0 None) passphrase Suite.Aes256Ctr
  = Suite.AESCTREncrypt src (mkWriter (d0 ++ salt) None) k
  ∧ Suite.StreamDecrypt (bytes_reader (salt ++ body)) dest passphrase
                        Suite.Aes256Ctr
    = Suite.AESCTRDecrypt (bytes_reader body) dest
        (Suite.DeriveKey [] passphrase (Some salt) 32).1.1.
Proof.
  intros Hd Hs Hne. split.
  - unfold Suite.StreamEncrypt. rewrite decide_refl.
    by rewrite Hd, Write_buffer.
  - unfold Suite.StreamDecrypt. rewrite decide_refl. rewrite <- Hs.
    rewrite Read_bytes_reader_prefix by done. rewrite copy_make.
    destruct (Suite.DeriveKey [] passphrase (Some salt) 32) as [[k2 s2] e2].
    reflexivity.
Qed.

(** X13. Unlike [AESCTREnc], [StreamEncrypt] returns the error of its first
    write: when the destination rejects the tag (RC4) or the salt
    (AES-CTR), the error comes back and the source has not been read. *)
Theorem StreamEncrypt_header_write_error `{Suite.Lib}
    (rnd passphrase k salt d0 : bytes) (e1 : option error) (src : Reader) :
  Suite.DeriveKey rnd passphrase None 32 = (k, salt, e1) → salt ≠ [] →
  Suite.StreamEncrypt rnd src (mkWriter d0 (Some 0)) passphrase Suite.RC4
  = (Some ErrNoSpace, src, mkWriter d0 (Some 0))
  ∧ Suite.StreamEncrypt rnd src (mkWriter d0 (Some 0)) passphrase
                        Suite.Aes256Ctr
    = (Some ErrNoSpace, src, mkWriter d0 (Some 0)).
Proof.
  intros Hd Hne.
  assert (Hfull : ∀ p, p ≠ [] →
            Write p (mkWriter d0 (Some 0))
            = (0, Some ErrNoSpace, mkWriter d0 (Some 0))).
  { intros p Hp. unfold Write. cbn [w_room w_data].
    rewrite decide_False by (destruct p; [done|simpl; lia]).
    by rewrite take_0, app_nil_r. }
  split.
  - unfold Suite.StreamEncrypt.
    rewrite decide_False by discriminate. rewrite decide_refl.
    rewrite Hfull; [done|].
    intros E. pose proof (Suite.SHA256_size passphrase) as Hs.
    rewrite E in Hs. discriminate.
  - unfold Suite.StreamEncrypt. rewrite decide_refl, Hd.
    by rewrite Hfull.
Qed.

Lemma Dispatch_unsupported_witness :
  Suite.BlockEncrypt [] [x01] tpass "DES" = Ret (None, Some Suite.algoErr)
  ∧ Suite.BlockDecrypt [x01] tpass "DES" = Ret (None, Some Suite.algoErr)
  ∧ Suite.StreamEncrypt [] (bytes_reader thello) new_buffer tpass "DES"
    = (Some Suite.algoErr, bytes_reader thello, new_buffer)
  ∧ Suite.StreamDecrypt (bytes_reader thello) new_buffer tpass "DES"
    = (Some Suite.algoErr, bytes_reader thello, new_buffer)
  ∧ SuiteRsa.Sign [x01] tkey "DES" = (None, Some Suite.algoErr)
  ∧ SuiteRsa.Verify [x01] [x01] tkey "DES" = (false, Some Suite.algoErr).
Proof.
  apply (Dispatch_unsupported "DES" [] [x01] tpass tkey
           (bytes_reader thello) new_buffer); discriminate.
Defined.

Lemma Block_round_trip_witness :
  Suite.BlockEncrypt thello thello tpass Suite.Aes256Gcm
  = Ret (Some (match toy_seal thello (toy_derive thello tpass None 32).1.1
                               tsalt with
               | inr c => c | inl _ => [] end ++ tsalt), None)
  ∧ Suite.BlockDecrypt
      (match toy_seal thello (toy_derive thello tpass None 32).1.1 tsalt with
       | inr c => c | inl _ => [] end ++ tsalt) tpass Suite.Aes256Gcm
    = Ret (Some thello, None).
Proof.
  apply (Block_round_trip thello thello tpass
           (toy_derive thello tpass None 32).1.1 tsalt _ None None tsalt);
    reflexivity.
Defined.

Lemma Stream_salt_framing_witness :
  Suite.StreamEncrypt thello (bytes_reader thello) (mkWriter [] None) tpass
                      Suite.Aes256Ctr
  = Suite.AESCTREncrypt (bytes_reader thello) (mkWriter ([] ++ tsalt) None)
      (toy_derive thello tpass None 32).1.1
  ∧ Suite.StreamDecrypt (bytes_reader (tsalt ++ thello)) new_buffer tpass
                        Suite.Aes256Ctr
    = Suite.AESCTRDecrypt (bytes_reader thello) new_buffer
        (Suite.DeriveKey [] tpass (Some tsalt) 32).1.1.
Proof.
  apply (Stream_salt_framing thello tpass
           (toy_derive thello tpass None 32).1.1 tsalt [] None
           (bytes_reader thello) new_buffer thello).
  - reflexivity.
  - reflexivity.
  - discriminate.
Defined.

Lemma StreamEncrypt_header_write_error_witness :
  Suite.StreamEncrypt thello (bytes_reader thello) (mkWriter [] (Some 0))
                      tpass Suite.RC4
  = (Some ErrNoSpace, bytes_reader thello, mkWriter [] (Some 0))
  ∧ Suite.StreamEncrypt thello (bytes_reader thello) (mkWriter [] (Some 0))
                        tpass Suite.Aes256Ctr
    = (Some ErrNoSpace, bytes_reader thello, mkWriter [] (Some 0)).
Proof.
  apply (StreamEncrypt_header_write_error thello tpass
           (toy_derive thello tpass None 32).1.1 tsalt [] None
           (bytes_reader thello)).
  - reflexivity.
  - discriminate.
Defined.

(** ** Strings and paths *)

Lemma append_skt_ne (p : string) : (p +:+ Kit.sktExt)%string ≠ p.
Proof.
  intros E. apply (f_equal String.length) in E.
  rewrite string_length_app in E. simpl in E. lia.
Qed.

(** Whatever the path, adding ".skt" makes ".skt" its extension. *)
Lemma Ext_append_skt (p : string) : Ext (p +:+ Kit.sktExt) = Kit.sktExt.
Proof.
  unfold Ext. rewrite list_ascii_of_string_app, rev_app_distr. reflexivity.
Qed.

Lemma take_while_app_all {A : Type} (f : A → bool) (l k : list A) :
  forallb f l = true → take_while f (l ++ k) = l ++ take_while f k.
Proof.
  induction l as [|x l IH]; simpl; [done|].
  intros Hf. apply andb_prop in Hf as [Hx Hl]. by rewrite Hx, IH.
Qed.

Lemma drop_while_app_all {A : Type} (f : A → bool) (l k : list A) :
  forallb f l = true → drop_while f (l ++ k) = drop_while f k.
Proof.
  induction l as [|x l IH]; simpl; [done|].
  intros Hf. apply andb_prop in Hf as [Hx Hl]. by rewrite Hx, IH.
Qed.

Lemma forallb_rev {A : Type} (f : A → bool) (l : list A) :
  forallb f (rev l) = forallb f l.
Proof.
  induction l as [|x l IH]; simpl; [done|].
  rewrite forallb_app, IH. simpl. rewrite andb_true_r. apply andb_comm.
Qed.

Lemma path_parts (dir name : string) :
  is_dir dir = true → is_name name = true →
  Path.Name (dir +:+ name) = name ∧ Path.BasePath (dir +:+ name) = dir.
Proof.
  intros Hdir Hname. unfold is_name in Hname.
  apply andb_prop in Hname as [Hne Hns].
  apply negb_true_iff, bool_decide_eq_false in Hne. unfold no_sep in Hns.
  set (ln := list_ascii_of_string name) in *.
  set (ld := list_ascii_of_string dir) in *.
  assert (Hln : ln ≠ []).
  { intros E. apply Hne. rewrite <- (string_of_list_ascii_of_string name).
    fold ln. by rewrite E. }
  assert (Hrn : forallb (fun c => negb (is_sep c)) (rev ln) = true)
    by (by rewrite forallb_rev).
  assert (Hdw : drop_while (fun c => negb (is_sep c)) (rev ld) = rev ld
                ∧ take_while (fun c => negb (is_sep c)) (rev ld) = []).
  { unfold is_dir in Hdir. fold ld in Hdir.
    destruct (rev ld) as [|c l]; [done|]. simpl. by rewrite Hdir. }
  destruct Hdw as [Hdrop Htake].
  assert (HN : Path.Name (dir +:+ name) = name).
  { unfold Path.Name. rewrite decide_False.
    2:{ intros E. apply (f_equal String.length) in E.
        rewrite string_length_app in E. destruct name; [done|].
        simpl in E. lia. }
    rewrite list_ascii_of_string_app, rev_app_distr. fold ln ld.
    assert (Hds : drop_while is_sep (rev ln ++ rev ld) = rev ln ++ rev ld).
    { destruct (rev ln) as [|c l] eqn:E.
      - apply (f_equal (@rev ascii)) in E. rewrite rev_involutive in E. done.
      - simpl in Hrn. apply andb_prop in Hrn as [Hc _].
        apply negb_true_iff in Hc. simpl. by rewrite Hc. }
    rewrite Hds, take_while_app_all, Htake, app_nil_r, rev_involutive by done.
    assert (Hs : string_of_list_ascii ln = name)
      by apply string_of_list_ascii_of_string.
    clearbody ln. by destruct ln. }
  assert (HB : Path.BasePath (dir +:+ name) = dir).
  { unfold Path.BasePath.
    rewrite list_ascii_of_string_app, rev_app_distr. fold ln ld.
    rewrite drop_while_app_all, Hdrop, rev_involutive by done.
    apply string_of_list_ascii_of_string. }
  done.
Qed.

(** X14. kit/path/path.go: on a path [dir ‖ name], where [dir] is empty or
    ends with the separator and [name] is a non-empty element without
    one, [Name] is [name] and [BasePath] is [dir]; so the two parts put
    together give the path back. *)
Theorem Name_BasePath_split (dir name : string) :
  is_dir dir = true → is_name name = true →
  Path.Name (dir +:+ name) = name
  ∧ Path.BasePath (dir +:+ name) = dir
  ∧ (Path.BasePath (dir +:+ name) +:+ Path.Name (dir +:+ name))%string
    = (dir +:+ name)%string.
Proof.
  intros Hdir Hname. destruct (path_parts dir name Hdir Hname) as [HN HB].
  by rewrite HN, HB.
Qed.

(** ** The file-level operations *)

Lemma copy_short (n : nat) (src : bytes) :
  length src ≤ n → copy (make n) src = src ++ replicate (n - length src) x00.
Proof.
  intros Hl. unfold copy, make.
  rewrite length_replicate, take_ge by done. by rewrite drop_replicate.
Qed.

(** A file that is too short cannot pass for a version tag that does not
    end with a zero byte, although the slice it is read into is padded
    with zeros. *)
Lemma padded_version (v c : bytes) :
  last v ≠ Some x00 → take (length v) c ≠ v →
  copy (make (length v)) (take (length v) c) ≠ v.
Proof.
  intros Hlast Hne. destruct (decide (length v ≤ length c)) as [Hle|Hgt].
  - rewrite copy_full; [done|]. rewrite length_make, length_take. lia.
  - rewrite take_ge by lia. rewrite copy_short by lia.
    intros E. apply Hlast. rewrite <- E.
    destruct (length v - length c) as [|m] eqn:Em; [lia|].
    by rewrite replicate_S_end, app_assoc, last_snoc.
Qed.

Lemma beforeDecrypt_mismatch (fs : FS) (filepath : string) (v c : bytes) :
  last v ≠ Some x00 → fs !! filepath = Some c → take (length v) c ≠ v →
  Kit.beforeDecrypt fs filepath v = inl Kit.ErrVersionMismatch.
Proof.
  intros Hlast Hc Hne. unfold Kit.beforeDecrypt, os_Open. rewrite Hc.
  unfold Kit.versionCheck. rewrite file_Read_bytes_reader.
  by rewrite bool_decide_eq_false_2 by (by apply padded_version).
Qed.

Lemma file_Write_insert (fs : FS) (d : string) (p q : bytes) :
  file_Write (<[d := p]> fs) d q = <[d := p ++ q]> fs.
Proof. unfold file_Write. by rewrite alter_insert_eq. Qed.

Lemma file_writer_insert (fs : FS) (d : string) (p : bytes) :
  file_writer (<[d := p]> fs) d = mkWriter p None.
Proof. unfold file_writer. by rewrite lookup_insert_eq. Qed.

Lemma file_store_insert (fs : FS) (d : string) (p : bytes) (w : Writer) :
  file_store (<[d := p]> fs) d w = <[d := w_data w]> fs.
Proof. unfold file_store. apply insert_insert_eq. Qed.

Lemma os_Remove_insert (fs : FS) (d : string) (p : bytes) :
  os_Remove (<[d := p]> fs) d = delete d fs.
Proof. unfold os_Remove. apply delete_insert_eq. Qed.

(** X15. An encrypt operation never encrypts its own output: on a path
    [p ‖ ".skt"], whatever [p] is, each of them returns [nil] and leaves
    the file system as it is. *)
Theorem Encrypt_skips_own_output `{Kit.Lib} (rnd : bytes) (fs : FS)
    (p keyfile : string) (passphrase : bytes) (delete : bool) :
  Kit.RC4FileEncrypt fs (p +:+ Kit.sktExt) passphrase delete = (None, fs)
  ∧ Kit.AESFileEncrypt fs (p +:+ Kit.sktExt) passphrase delete = (None, fs)
  ∧ (is_Some (fs !! keyfile) →
     Kit.RSAFileEncrypt rnd fs (p +:+ Kit.sktExt) keyfile delete = (None, fs)).
Proof.
  pose proof (Ext_append_skt p) as HE.
  unfold Kit.RC4FileEncrypt, Kit.AESFileEncrypt, Kit.RSAFileEncrypt.
  split; [|split].
  - by rewrite decide_True by done.
  - by rewrite decide_True by done.
  - intros [key Hk]. unfold os_Open. rewrite Hk.
    by rewrite decide_True by done.
Qed.

(** X16. A decrypt operation creates no destination unless the source starts
    with its version tag: otherwise it returns "version mismatch error"
    and the file system is as before.  A source shorter than the tag is
    such a case. *)
Theorem Decrypt_version_gate `{Kit.Lib} (fs : FS) (filepath keyfile : string)
    (passphrase c key : bytes) (delete : bool) :
  Ext filepath = Kit.sktExt → fs !! filepath = Some c →
  fs !! keyfile = Some key →
  (take 5 c ≠ Kit.SKTRC4Version →
   Kit.RC4FileDecrypt fs filepath passphrase delete
   = (Some Kit.ErrVersionMismatch, fs))
  ∧ (take 5 c ≠ Kit.SKTAESVersion →
     Kit.AESFileDecrypt fs filepath passphrase delete
     = (Some Kit.ErrVersionMismatch, fs))
  ∧ (take 5 c ≠ Kit.SKTRSAVersion →
     Kit.RSAFileDecrypt fs filepath keyfile delete
     = Ret (Some Kit.ErrVersionMismatch, fs)).
Proof.
  intros HE Hc Hk.
  unfold Kit.RC4FileDecrypt, Kit.AESFileDecrypt, Kit.RSAFileDecrypt.
  split; [|split]; intros Hne.
  - rewrite decide_False by (intros Hn; by apply Hn).
    by rewrite (beforeDecrypt_mismatch fs filepath _ c) by done.
  - rewrite decide_False by (intros Hn; by apply Hn).
    by rewrite (beforeDecrypt_mismatch fs filepath _ c) by done.
  - unfold os_Open at 1. rewrite Hk.
    rewrite decide_False by (intros Hn; by apply Hn).
    by rewrite (beforeDecrypt_mismatch fs filepath _ c) by done.
Qed.

(** X17. [RC4FileDecrypt] with a passphrase whose hash is not the one stored
    behind the version tag returns "wrong passphrase" and removes the
    destination it had created: afterwards no file has the destination's
    name, whether one existed before or not.  The destination's name,
    the source's without ".skt", is a file's. *)
Theorem RC4FileDecrypt_wrong_passphrase `{Kit.Lib} (fs : FS)
    (filepath : string) (passphrase rest : bytes) (delete : bool) :
  Ext filepath = Kit.sktExt →
  names_file (TrimSuffix filepath Kit.sktExt) = true →
  fs !! filepath = Some (Kit.SKTRC4Version ++ rest) →
  copy (make 32) (take 32 rest) ≠ Kit.SHA256 passphrase →
  Kit.RC4FileDecrypt fs filepath passphrase delete
  = (Some Kit.ErrWrongPassphrase,
     base.delete (TrimSuffix filepath Kit.sktExt) fs)
  ∧ base.delete (TrimSuffix filepath Kit.sktExt) fs
      !! TrimSuffix filepath Kit.sktExt = None.
Proof.
  intros HE Hn Hc Hne. split; [|apply lookup_delete_eq].
  unfold Kit.RC4FileDecrypt.
  rewrite decide_False by (intros Hx; by apply Hx).
  assert (Hv : Kit.SKTRC4Version ≠ []) by discriminate.
  rewrite (beforeDecrypt_open _ _ _ _ Hv Hc Hn).
  rewrite file_Read_bytes_reader.
  rewrite bool_decide_eq_false_2 by (unfold Suite.sha256_Size; congruence).
  cbn [negb]. by rewrite os_Remove_insert.
Qed.

(** X18. When its call of the stream transform fails, an encrypt operation
    returns the error of that call, the destination is gone, and the
    source is still there even when its deletion was asked for.  The
    call is the one the operation makes: on the whole source, into the
    destination that holds the header, with the passphrase (for
    [RSAFileEncrypt] the random one). *)
Theorem Encrypt_stream_failure `{Kit.Lib} (rnd : bytes) (fs : FS)
    (filepath keyfile : string) (passphrase c key pbytes : bytes)
    (delete : bool) :
  Ext filepath ≠ Kit.sktExt → fs !! filepath = Some c →
  let dest := (filepath +:+ Kit.sktExt)%string in
  let fs' := base.delete dest fs in
  (∀ e r w,
     Kit.StreamEnc (bytes_reader c)
       (mkWriter (Kit.SKTRC4Version ++ Kit.SHA256 passphrase) None)
       passphrase Suite.RC4 = (Some e, r, w) →
     Kit.RC4FileEncrypt fs filepath passphrase delete = (Some e, fs'))
  ∧ (∀ e r w,
       Kit.StreamEnc (bytes_reader c) (mkWriter Kit.SKTAESVersion None)
         passphrase Kit.aesAlgo = (Some e, r, w) →
       Kit.AESFileEncrypt fs filepath passphrase delete = (Some e, fs'))
  ∧ (∀ e r w,
       fs !! keyfile = Some key → Kit.RSAEncrypt rnd key = inr pbytes →
       Kit.StreamEnc (bytes_reader c)
         (mkWriter (Kit.SKTRSAVersion
                      ++ PutUint64 (N.of_nat (length pbytes)) ++ pbytes) None)
         rnd Kit.aesAlgo = (Some e, r, w) →
       Kit.RSAFileEncrypt rnd fs filepath keyfile delete = (Some e, fs'))
  ∧ fs' !! dest = None
  ∧ fs' !! filepath = Some c.
Proof.
  intros HE Hc dest fs'.
  unfold Kit.RC4FileEncrypt, Kit.AESFileEncrypt, Kit.RSAFileEncrypt.
  rewrite !decide_False by done.
  rewrite !(beforeEncrypt_open _ _ _ Hc). fold dest.
  split; [|split; [|split; [|split]]].
  - intros e r w Hfail.
    rewrite !file_Write_insert, file_writer_insert.
    cbn [app Kit.f_rd Kit.f_name]. cbn [app] in Hfail. rewrite Hfail.
    by rewrite file_store_insert, os_Remove_insert.
  - intros e r w Hfail.
    rewrite !file_Write_insert, file_writer_insert.
    cbn [app Kit.f_rd Kit.f_name]. rewrite Hfail.
    by rewrite file_store_insert, os_Remove_insert.
  - intros e r w Hk Hrsa Hfail. unfold os_Open. rewrite Hk, Hrsa.
    rewrite !file_Write_insert, file_writer_insert.
    cbn [Kit.f_rd Kit.f_name]. rewrite <- !app_assoc. cbn [app].
    cbn [app] in Hfail. rewrite Hfail. rewrite decide_False by done.
    by rewrite file_store_insert, os_Remove_insert.
  - apply lookup_delete_eq.
  - unfold fs', dest. rewrite lookup_delete_ne; [done|]. apply append_skt_ne.
Qed.

Lemma to_N_byte_of_N (x : N) : (x < 256)%N → Byte.to_N (byte_of_N x) = x.
Proof.
  intros Hx. unfold byte_of_N.
  destruct (Byte.of_N x) as [b|] eqn:E.
  - simpl. by apply Byte.to_of_N.
  - apply Byte.of_N_None_iff in E. lia.
Qed.

Lemma length_be_put (k : nat) (v : N) : length (be_put k v) = k.
Proof.
  revert v. induction k as [|k IH]; intros v; simpl; [done|].
  rewrite length_app, IH. simpl. lia.
Qed.

Lemma be_put_decode (k : nat) (v : N) :
  foldl (fun acc x => (acc * 256 + Byte.to_N x)%N) 0%N (be_put k v)
  = (v mod 256 ^ N.of_nat k)%N.
Proof.
  revert v. induction k as [|k IH]; intros v.
  - simpl. by rewrite N.mod_1_r.
  - cbn [be_put]. rewrite foldl_app, IH. cbn [foldl].
    rewrite to_N_byte_of_N by (apply N.mod_lt; lia).
    rewrite Nat2N.inj_succ, N.pow_succ_r by lia.
    rewrite N.Div0.mod_mul_r. lia.
Qed.

(** [binary.BigEndian]: reading back the eight bytes of a [uint64]. *)
Lemma Uint64_PutUint64_id (v : N) :
  (v < 2 ^ 64)%N → Uint64 (PutUint64 v) = v.
Proof.
  intros Hv. unfold Uint64, PutUint64.
  rewrite take_ge by (by rewrite length_be_put).
  rewrite be_put_decode. apply N.mod_small.
  change (256 ^ N.of_nat 8)%N with (2 ^ 64)%N. done.
Qed.

(** What [RSAFileDecrypt] has done when it reaches the RSA step on a
    container that holds the wrapped passphrase [pbytes]. *)
Ltac rsa_container Hk Hc Hn Hmax :=
  unfold Kit.RSAFileDecrypt, os_Open at 1;
  rewrite Hk; rewrite decide_False by (intros Hx; by apply Hx);
  (let Hv := fresh "Hv" in
   assert (Hv : Kit.SKTRSAVersion ≠ []) by discriminate;
   rewrite (beforeDecrypt_open _ _ _ _ Hv Hc Hn); clear Hv);
  rewrite file_Read_psize by apply length_be_put;
  rewrite Uint64_PutUint64_id
    by (eapply N.le_lt_trans; [apply Hmax|reflexivity]);
  rewrite make_len_ok, run_bind_Ret by done;
  rewrite Nat2N.id, file_Read_bytes_reader;
  rewrite take_app_length, drop_app_length, copy_make.

(** X19. Likewise on the way back: when its call of the stream transform
    fails, a decrypt operation returns the error of that call and leaves
    no destination behind.  The destination's name is a file's; for
    [RSAFileDecrypt] the container holds a wrapped passphrase of the
    length it announces, which the key file unwraps. *)
Theorem Decrypt_stream_failure `{Kit.Lib} (fs : FS)
    (filepath keyfile : string) (passphrase key : bytes) (delete : bool) :
  Ext filepath = Kit.sktExt →
  names_file (TrimSuffix filepath Kit.sktExt) = true →
  let dest := TrimSuffix filepath Kit.sktExt in
  let fs' := base.delete dest fs in
  (∀ body e r w,
     fs !! filepath = Some (Kit.SKTAESVersion ++ body) →
     Kit.StreamDec (bytes_reader body) (mkWriter [] None) passphrase
                   Kit.aesAlgo = (Some e, r, w) →
     Kit.AESFileDecrypt fs filepath passphrase delete = (Some e, fs'))
  ∧ (∀ rest e r w,
       fs !! filepath = Some (Kit.SKTRC4Version ++ rest) →
       copy (make 32) (take 32 rest) = Kit.SHA256 passphrase →
       Kit.StreamDec (bytes_reader (drop 32 rest)) (mkWriter [] None)
                     passphrase Suite.RC4 = (Some e, r, w) →
       Kit.RC4FileDecrypt fs filepath passphrase delete = (Some e, fs'))
  ∧ (∀ pbytes body p e r w,
       fs !! keyfile = Some key →
       fs !! filepath
       = Some (Kit.SKTRSAVersion ++ PutUint64 (N.of_nat (length pbytes))
                 ++ pbytes ++ body) →
       (N.of_nat (length pbytes) ≤ Kit.maxAlloc)%N →
       Kit.RSADecrypt pbytes key = inr p →
       Kit.StreamDec (bytes_reader body) (mkWriter [] None) p Kit.aesAlgo
       = (Some e, r, w) →
       Kit.RSAFileDecrypt fs filepath keyfile delete = Ret (Some e, fs'))
  ∧ fs' !! dest = None.
Proof.
  intros HE Hn dest fs'.
  split; [|split; [|split]].
  - intros body e r w Hc Hfail. unfold Kit.AESFileDecrypt.
    rewrite decide_False by (intros Hx; by apply Hx).
    assert (Hv : Kit.SKTAESVersion ≠ []) by discriminate.
    rewrite (beforeDecrypt_open _ _ _ _ Hv Hc Hn). fold dest.
    rewrite file_writer_insert. cbn [Kit.f_rd]. rewrite Hfail.
    by rewrite file_store_insert, os_Remove_insert.
  - intros rest e r w Hc Hsha Hfail. unfold Kit.RC4FileDecrypt.
    rewrite decide_False by (intros Hx; by apply Hx).
    assert (Hv : Kit.SKTRC4Version ≠ []) by discriminate.
    rewrite (beforeDecrypt_open _ _ _ _ Hv Hc Hn). fold dest.
    rewrite file_Read_bytes_reader. unfold Suite.sha256_Size.
    rewrite bool_decide_eq_true_2 by done. cbn [negb Kit.f_rd].
    rewrite file_writer_insert, Hfail.
    by rewrite file_store_insert, os_Remove_insert.
  - intros pbytes body p e r w Hk Hc Hmax Hrsa Hfail.
    rsa_container Hk Hc Hn Hmax. fold dest.
    rewrite Hrsa. cbn [Kit.f_rd]. rewrite file_writer_insert, Hfail.
    by rewrite file_store_insert, os_Remove_insert.
  - apply lookup_delete_eq.
Qed.

(** X20. A successful [AESFileEncrypt] or [RC4FileEncrypt]: the destination
    holds what the stream transform left in a writer that started with
    the header (the version tag, for RC4 followed by the hash of the
    passphrase); the source is removed exactly when [delete] is set. *)
Theorem Encrypt_success `{Kit.Lib} (fs : FS) (filepath : string)
    (passphrase c : bytes) (delete : bool) (r1 r2 : Reader) (w1 w2 : Writer) :
  Ext filepath ≠ Kit.sktExt → fs !! filepath = Some c →
  Kit.StreamEnc (bytes_reader c) (mkWriter Kit.SKTAESVersion None)
                passphrase Kit.aesAlgo = (None, r1, w1) →
  Kit.StreamEnc (bytes_reader c)
                (mkWriter (Kit.SKTRC4Version ++ Kit.SHA256 passphrase) None)
                passphrase Suite.RC4 = (None, r2, w2) →
  let dest := (filepath +:+ Kit.sktExt)%string in
  (∃ fs', Kit.AESFileEncrypt fs filepath passphrase delete = (None, fs')
          ∧ fs' !! dest = Some (w_data w1)
          ∧ fs' !! filepath = if delete then None else Some c)
  ∧ (∃ fs', Kit.RC4FileEncrypt fs filepath passphrase delete = (None, fs')
            ∧ fs' !! dest = Some (w_data w2)
            ∧ fs' !! filepath = if delete then None else Some c).
Proof.
  intros HE Hc Haes Hrc4 dest.
  pose proof (append_skt_ne filepath) as Hne.
  assert (Hfin : ∀ d : bytes,
            Kit.deleteFile (<[dest := d]> fs) filepath delete !! dest = Some d
            ∧ Kit.deleteFile (<[dest := d]> fs) filepath delete !! filepath
              = if delete then None else Some c).
  { intros d. unfold Kit.deleteFile, os_Remove. destruct delete.
    - rewrite lookup_delete_ne by done. rewrite lookup_insert_eq.
      by rewrite lookup_delete_eq.
    - by rewrite lookup_insert_eq, lookup_insert_ne. }
  unfold Kit.RC4FileEncrypt, Kit.AESFileEncrypt.
  rewrite !decide_False by done.
  rewrite !(beforeEncrypt_open _ _ _ Hc). fold dest.
  rewrite !file_Write_insert, !file_writer_insert. cbn [app Kit.f_rd Kit.f_name].
  rewrite Haes, Hrc4, !file_store_insert.
  split; eexists; (split; [reflexivity|apply Hfin]).
Qed.

(** *** The RSA container *)

(** X21. [RSAFileEncrypt] lays the container out as version tag, the length
    of the wrapped passphrase as 8 big-endian bytes, the wrapped
    passphrase, and then what the stream transform writes. *)
Theorem RSAFileEncrypt_container `{Kit.Lib} (rnd : bytes) (fs : FS)
    (filepath keyfile : string) (delete : bool) (c key pbytes : bytes)
    (r : Reader) (w : Writer) :
  Ext filepath ≠ Kit.sktExt → fs !! keyfile = Some key →
  fs !! filepath = Some c → Kit.RSAEncrypt rnd key = inr pbytes →
  Kit.StreamEnc (bytes_reader c)
    (mkWriter (Kit.SKTRSAVersion ++ PutUint64 (N.of_nat (length pbytes))
                 ++ pbytes) None) rnd Kit.aesAlgo = (None, r, w) →
  Kit.RSAFileEncrypt rnd fs filepath keyfile delete
  = (None,
     Kit.deleteFile (<[(filepath +:+ Kit.sktExt)%string := w_data w]> fs)
                    filepath delete).
Proof.
  intros HE Hk Hc Hrsa Henc. unfold Kit.RSAFileEncrypt, os_Open at 1.
  rewrite Hk. rewrite decide_False by done.
  rewrite (beforeEncrypt_open _ _ _ Hc), Hrsa.
  rewrite !file_Write_insert, !file_writer_insert.
  cbn [Kit.f_rd Kit.f_name]. rewrite <- !app_assoc. cbn [app].
  cbn [app] in Henc. rewrite Henc. by rewrite file_store_insert.
Qed.

(** X22. [RSAFileDecrypt] reads that layout back: from a container with the
    wrapped passphrase [pbytes] it hands exactly [pbytes] to [RSADecrypt]
    and exactly the bytes behind it to the stream transform.  The
    destination's name is a file's, and the length of [pbytes] is one
    that [make] accepts. *)
Theorem RSAFileDecrypt_parses_container `{Kit.Lib} (fs : FS)
    (filepath keyfile : string) (delete : bool) (prk pbytes body : bytes) :
  Ext filepath = Kit.sktExt →
  names_file (TrimSuffix filepath Kit.sktExt) = true →
  fs !! keyfile = Some prk →
  (N.of_nat (length pbytes) ≤ Kit.maxAlloc)%N →
  fs !! filepath
  = Some (Kit.SKTRSAVersion ++ PutUint64 (N.of_nat (length pbytes))
            ++ pbytes ++ body) →
  let dest := TrimSuffix filepath Kit.sktExt in
  Kit.RSAFileDecrypt fs filepath keyfile delete
  = Ret match Kit.RSADecrypt pbytes prk with
        | inl e => (Some e, <[dest := []]> fs)
        | inr passphrase =>
            let '(err, _, w) :=
              Kit.StreamDec (bytes_reader body) (mkWriter [] None) passphrase
                            Kit.aesAlgo in
            match err with
            | Some _ => (err, base.delete dest fs)
            | None => (None, Kit.deleteFile (<[dest := w_data w]> fs)
                                            filepath delete)
            end
        end.
Proof.
  intros HE Hn Hk Hmax Hc dest.
  rsa_container Hk Hc Hn Hmax. fold dest.
  destruct (Kit.RSADecrypt pbytes prk) as [e|passphrase]; [done|].
  cbn [Kit.f_rd Kit.f_name]. rewrite file_writer_insert.
  destruct (Kit.StreamDec _ _ _ _) as [[[e|] r] w].
  - by rewrite file_store_insert, os_Remove_insert.
  - by rewrite file_store_insert.
Qed.

(** X27. A container that announces a wrapped passphrase of 2^63 bytes or
    more makes [RSAFileDecrypt] panic: the length read from the file goes
    to [make] unchecked.  The destination has been created by then. *)
Theorem RSAFileDecrypt_length_panics `{Kit.Lib} (fs : FS)
    (filepath keyfile : string) (delete : bool) (prk psize rest : bytes) :
  Ext filepath = Kit.sktExt →
  names_file (TrimSuffix filepath Kit.sktExt) = true →
  fs !! keyfile = Some prk →
  fs !! filepath = Some (Kit.SKTRSAVersion ++ psize ++ rest) →
  length psize = Kit.pSizeLen →
  (2 ^ 63 ≤ Uint64 psize)%N →
  Kit.RSAFileDecrypt fs filepath keyfile delete = Panic Kit.makeslice_len
  ∧ ∃ src dest fs',
      Kit.beforeDecrypt fs filepath Kit.SKTRSAVersion = inr (src, dest, fs')
      ∧ fs' !! dest = Some [].
Proof.
  intros HE Hn Hk Hc Hlen Hbig.
  assert (Hv : Kit.SKTRSAVersion ≠ []) by discriminate.
  split.
  - unfold Kit.RSAFileDecrypt, os_Open at 1. rewrite Hk.
    rewrite decide_False by (intros Hx; by apply Hx).
    rewrite (beforeDecrypt_open _ _ _ _ Hv Hc Hn).
    rewrite file_Read_psize by done.
    unfold Kit.make_len. rewrite decide_False; [done|].
    intros Hle. assert (Hlt : (Kit.maxAlloc < 2 ^ 63)%N) by reflexivity. lia.
  - rewrite (beforeDecrypt_open _ _ _ _ Hv Hc Hn).
    do 3 eexists. split; [reflexivity|]. apply lookup_insert_eq.
Qed.

(** X26. A container whose name is nothing but ".skt" behind its directory
    (or whose name without ".skt" is ["."] or [".."]) is not decrypted:
    the destination cannot be created, each decrypt operation returns the
    error of [os.Create] and the file system is as before.
    [RSAFileDecrypt] returns before it reads the announced length. *)
Theorem Decrypt_no_destination `{Kit.Lib} (fs : FS)
    (filepath keyfile : string) (passphrase key : bytes) (delete : bool) :
  Ext filepath = Kit.sktExt →
  names_file (TrimSuffix filepath Kit.sktExt) = false →
  let e := if decide (TrimSuffix filepath Kit.sktExt = ""%string)
           then ErrNotExist else ErrIsDir in
  (∀ rest, fs !! filepath = Some (Kit.SKTRC4Version ++ rest) →
     Kit.RC4FileDecrypt fs filepath passphrase delete = (Some e, fs))
  ∧ (∀ rest, fs !! filepath = Some (Kit.SKTAESVersion ++ rest) →
       Kit.AESFileDecrypt fs filepath passphrase delete = (Some e, fs))
  ∧ (∀ rest, fs !! keyfile = Some key →
       fs !! filepath = Some (Kit.SKTRSAVersion ++ rest) →
       Kit.RSAFileDecrypt fs filepath keyfile delete = Ret (Some e, fs)).
Proof.
  intros HE Hn e.
  assert (Hb : ∀ v rest, v ≠ [] → fs !! filepath = Some (v ++ rest) →
               Kit.beforeDecrypt fs filepath v = inl e).
  { intros v rest Hv Hc. by apply (beforeDecrypt_no_file fs filepath v rest). }
  unfold Kit.RC4FileDecrypt, Kit.AESFileDecrypt, Kit.RSAFileDecrypt.
  split; [|split].
  - intros rest Hc. rewrite decide_False by (intros Hx; by apply Hx).
    by rewrite (Hb _ rest) by done.
  - intros rest Hc. rewrite decide_False by (intros Hx; by apply Hx).
    by rewrite (Hb _ rest) by done.
  - intros rest Hk Hc. unfold os_Open at 1. rewrite Hk.
    rewrite decide_False by (intros Hx; by apply Hx).
    by rewrite (Hb _ rest) by done.
Qed.

(** ** kit/rnm.go *)

(** X23. A stored name shorter than the salt makes [Recover] panic: the slice
    [ciphertext[len(ciphertext)-SaltLen:]] is taken without a check. *)
Theorem Recover_short_entry_panics `{Kit.Lib} (fs : FS) (source : string)
    (passphrase : bytes) (db : Kit.DataBase) (stored : string)
    (ciphertext : bytes) :
  HasPrefix (Path.Name source) Kit.RnmVersion = true →
  db !! Path.Name source = Some stored →
  Kit.base64_DecodeString stored = inr ciphertext →
  length ciphertext < Kit.SaltLen →
  Kit.Recover fs source passphrase db = Panic slice_bounds.
Proof.
  intros Htag Hdb Hdec Hlen. unfold Kit.Recover, Kit.db_Get.
  rewrite Htag, Hdb, Hdec. cbn [negb].
  unfold slice_from, slice. by rewrite decide_False by lia.
Qed.


Lemma HasPrefix_id (rid : string) :
  HasPrefix (Kit.RnmVersion +:+ rid) Kit.RnmVersion = true.
Proof. destruct rid; vm_compute; reflexivity. Qed.

Lemma is_name_id (rid : string) :
  no_sep rid = true → is_name (Kit.RnmVersion +:+ rid) = true.
Proof.
  intros Hr. unfold is_name, no_sep in *.
  rewrite list_ascii_of_string_app, forallb_app, Hr. reflexivity.
Qed.

(** X25. Round trip of the ledger.  When the library derives the same key
    from the salt it drew, seals the name into a box that ends with the
    salt and opens it again, and the encoding can be decoded: [Rename]
    moves the file and records it, a second [Rename] of the moved file
    does nothing, and [Recover] with the same passphrase moves the file
    back and removes the entry, so that file system and ledger are as
    they were. *)
Theorem Rename_Recover_round_trip `{Kit.Lib} (rnd rnd' : bytes)
    (rid rid' dir name : string) (fs : FS) (passphrase c : bytes)
    (db : Kit.DataBase) (dk salt salt2 body : bytes) :
  is_dir dir = true → is_name name = true → no_sep rid = true →
  HasPrefix name Kit.RnmVersion = false →
  fs !! (dir +:+ name)%string = Some c →
  fs !! (dir +:+ (Kit.RnmVersion +:+ rid))%string = None →
  db !! (Kit.RnmVersion +:+ rid)%string = None →
  Kit.DeriveKey rnd passphrase None Kit.KeyLen = (dk, salt, None) →
  length salt = Kit.SaltLen →
  Kit.GCMEncrypt (Rnm.bytes_of_string name) dk salt = inr (body ++ salt) →
  Kit.base64_DecodeString (Kit.base64_EncodeToString (body ++ salt))
  = inr (body ++ salt) →
  Kit.DeriveKey [] passphrase (Some salt) Kit.KeyLen = (dk, salt2, None) →
  Kit.GCMDecrypt (body ++ salt) dk salt = inr (Rnm.bytes_of_string name) →
  let id := (Kit.RnmVersion +:+ rid)%string in
  let moved := (dir +:+ id)%string in
  ∃ fs1 db1,
    Rnm.Rename rnd rid fs (dir +:+ name) passphrase db = (None, fs1, db1)
    ∧ fs1 !! (dir +:+ name)%string = None ∧ fs1 !! moved = Some c
    ∧ db1 !! id = Some (Kit.base64_EncodeToString (body ++ salt))
    ∧ Rnm.Rename rnd' rid' fs1 moved passphrase db1 = (None, fs1, db1)
    ∧ Kit.Recover fs1 moved passphrase db1 = Ret (None, fs, db).
Proof.
  intros Hdir Hname Hrid Hpre Hsrc Hfree Hdb Hdk Hsalt Hseal Hb64 Hdk2 Hopen
    id moved.
  subst moved id. set (id := (Kit.RnmVersion +:+ rid)%string) in *.
  destruct (path_parts dir name Hdir Hname) as (HN & HB).
  destruct (path_parts dir id Hdir (is_name_id rid Hrid)) as (HNi & HBi).
  assert (Hpi : HasPrefix id Kit.RnmVersion = true) by apply HasPrefix_id.
  assert (Hneq : (dir +:+ id)%string ≠ (dir +:+ name)%string).
  { intros E. rewrite E in Hfree. congruence. }
  exists (<[(dir +:+ id)%string := c]> (delete (dir +:+ name)%string fs)),
         (<[id := Kit.base64_EncodeToString (body ++ salt)]> db).
  split; [|split; [|split; [|split; [|split]]]].
  - unfold Rnm.Rename. rewrite HN, HB, Hpre, Hdk, Hseal.
    unfold os_Rename. by rewrite Hsrc.
  - rewrite lookup_insert_ne by done. apply lookup_delete_eq.
  - apply lookup_insert_eq.
  - apply lookup_insert_eq.
  - unfold Rnm.Rename. by rewrite HNi, Hpi.
  - unfold Kit.Recover, Kit.db_Get.
    rewrite HNi, HBi, Hpi. cbn [negb].
    rewrite lookup_insert_eq, Hb64. rewrite <- Hsalt.
    rewrite slice_from_app. cbn [of_slice]. rewrite run_bind_Ret.
    rewrite Hdk2, Hopen.
    unfold Kit.string_of_bytes, Rnm.bytes_of_string.
    rewrite string_of_list_byte_of_string.
    unfold os_Rename. rewrite lookup_insert_eq.
    unfold Kit.db_Delete. do 2 f_equal; [f_equal|].
    + rewrite delete_insert_eq, delete_delete, insert_delete_eq.
      rewrite delete_id by done. by apply insert_id.
    + rewrite delete_insert_eq. by apply delete_id.
Qed.

(** ** The further properties at concrete inputs *)

Lemma AESCTRDec_chunking_witness :
  AESCTRDec 200 (bytes_reader tframe) new_buffer tkey tkey
  = AESCTRDec 300 tframe_pieces new_buffer tkey tkey.
Proof.
  apply (AESCTRDec_chunking 200 300 (bytes_reader tframe) tframe_pieces
           new_buffer tkey tkey).
  - reflexivity.
  - reflexivity.
  - vm_compute; reflexivity.
  - vm_compute; lia.
  - vm_compute; lia.
Defined.

Lemma AESCTRDec_returns_witness :
  ∃ e w, AESCTRDec 200 tframe_pieces new_buffer tkey tkey = Ret (e, w).
Proof.
  apply (AESCTRDec_returns 200 tframe_pieces new_buffer tkey tkey).
  - reflexivity.
  - vm_compute; lia.
Defined.

Lemma AESCTRDec_short_header_witness :
  AESCTRDec 200 (bytes_reader (take 10 tframe)) new_buffer tkey tkey
  = Ret (Some (if decide (length (content (bytes_reader (take 10 tframe))) ≤ 1)
               then EOF else ErrUnexpectedEOF), new_buffer).
Proof.
  apply (AESCTRDec_short_header 200 (bytes_reader (take 10 tframe))
           new_buffer tkey tkey).
  - reflexivity.
  - vm_compute; lia.
  - vm_compute; lia.
Defined.

Lemma AESCTRDec_bad_key_witness :
  AESCTRDec 200 (bytes_reader tframe) new_buffer tpass tkey
  = Ret (Some (KeySizeError (length tpass)), new_buffer).
Proof.
  apply (AESCTRDec_bad_key 200 (bytes_reader tframe) new_buffer tpass tkey).
  - reflexivity.
  - vm_compute; lia.
  - vm_compute; lia.
  - vm_compute. intros [?|[?|?]]; discriminate.
Defined.

Lemma AESCTREnc_bad_key_witness :
  AESCTREnc 200 trnd (bytes_reader thello) new_buffer tpass tkey
  = Ret (Some (KeySizeError (length tpass)), new_buffer).
Proof.
  apply (AESCTREnc_bad_key 200 trnd (bytes_reader thello) new_buffer
           tpass tkey).
  - reflexivity.
  - vm_compute; lia.
  - vm_compute; lia.
  - vm_compute. intros [?|[?|?]]; discriminate.
Defined.

Lemma AESCTREnc_chunking_witness :
  AESCTREnc 200 trnd (bytes_reader thello) (mkWriter [] None) tkey tkey
  = AESCTREnc 300 trnd [(take 2 thello, None); (drop 2 thello, Some EOF)]
              (mkWriter [] None) tkey tkey.
Proof.
  apply (AESCTREnc_chunking 200 300 trnd (bytes_reader thello)
           [(take 2 thello, None); (drop 2 thello, Some EOF)] [] tkey tkey).
  - left; reflexivity.
  - reflexivity.
  - vm_compute; lia.
  - vm_compute; lia.
  - vm_compute; lia.
  - reflexivity.
  - reflexivity.
  - reflexivity.
  - vm_compute; lia.
  - vm_compute; lia.
Defined.

Lemma AESCTRDec_drops_write_error_witness :
  (Write thello (mkWriter [] (Some 0))).1.2 = Some ErrNoSpace
  ∧ AESCTRDec 200 (bytes_reader tframe) (mkWriter [] (Some 0)) tkey tkey
    = Ret (None, mkWriter [] (Some 0)).
Proof.
  apply (AESCTRDec_drops_write_error 200 (bytes_reader tframe) [] tiv thello
           tkey tkey).
  - left; reflexivity.
  - reflexivity.
  - discriminate.
  - reflexivity.
  - reflexivity.
  - vm_compute; lia.
Defined.

Lemma AESCTREnc_read_error_witness :
  AESCTREnc 200 trnd (failing_reader [thello; thello] ErrBroken)
            (mkWriter [] None) tkey tkey
  = Ret (Some ErrBroken,
         mkWriter ([] ++ [V1] ++ take IV_SIZE (content trnd)
                      ++ enc_ciphertext (take IV_SIZE (content trnd))
                                        (concat [thello; thello]) tkey) None).
Proof.
  apply (AESCTREnc_read_error 200 trnd [thello; thello] ErrBroken [] tkey tkey).
  - left; reflexivity.
  - reflexivity.
  - vm_compute; lia.
  - vm_compute; lia.
  - repeat constructor; discriminate.
  - discriminate.
  - vm_compute; lia.
Defined.

Lemma Name_BasePath_split_witness :
  Path.Name ("dir/" +:+ tname) = tname
  ∧ Path.BasePath ("dir/" +:+ tname) = "dir/"
  ∧ (Path.BasePath ("dir/" +:+ tname) +:+ Path.Name ("dir/" +:+ tname))%string
    = ("dir/" +:+ tname)%string.
Proof.
  apply (Name_BasePath_split "dir/" tname); reflexivity.
Defined.

Lemma Decrypt_version_gate_witness :
  (take 5 thello ≠ Kit.SKTRC4Version →
   Kit.RC4FileDecrypt (<["a.skt" := thello]> tfs) "a.skt" tpass false
   = (Some Kit.ErrVersionMismatch, <["a.skt" := thello]> tfs))
  ∧ (take 5 thello ≠ Kit.SKTAESVersion →
     Kit.AESFileDecrypt (<["a.skt" := thello]> tfs) "a.skt" tpass false
     = (Some Kit.ErrVersionMismatch, <["a.skt" := thello]> tfs))
  ∧ (take 5 thello ≠ Kit.SKTRSAVersion →
     Kit.RSAFileDecrypt (<["a.skt" := thello]> tfs) "a.skt" "bad.pem" false
     = Ret (Some Kit.ErrVersionMismatch, <["a.skt" := thello]> tfs)).
Proof.
  apply (Decrypt_version_gate (<["a.skt" := thello]> tfs) "a.skt" "bad.pem"
           tpass thello [] false).
  - reflexivity.
  - vm_compute; reflexivity.
  - vm_compute; reflexivity.
Defined.

Lemma RC4FileDecrypt_wrong_passphrase_witness :
  Kit.RC4FileDecrypt tfs_more "c.skt" tkey false
  = (Some Kit.ErrWrongPassphrase,
     base.delete (TrimSuffix "c.skt" Kit.sktExt) tfs_more)
  ∧ base.delete (TrimSuffix "c.skt" Kit.sktExt) tfs_more
      !! TrimSuffix "c.skt" Kit.sktExt = None.
Proof.
  apply (RC4FileDecrypt_wrong_passphrase tfs_more "c.skt" tkey
           (toy_sha256 tpass ++ thello) false).
  - reflexivity.
  - reflexivity.
  - vm_compute; reflexivity.
  - vm_compute. discriminate.
Defined.

Lemma Encrypt_stream_failure_witness :
  let fs' := base.delete "big.txt.skt"%string tfs_big in
  @Kit.RC4FileEncrypt toy_kit_checked tfs_big "big.txt" tpass true
  = (Some ErrTooLarge, fs')
  ∧ @Kit.AESFileEncrypt toy_kit_checked tfs_big "big.txt" tpass true
    = (Some ErrTooLarge, fs')
  ∧ @Kit.RSAFileEncrypt toy_kit_checked tpass tfs_big "big.txt" "good.pem" true
    = (Some ErrTooLarge, fs')
  ∧ fs' !! "big.txt.skt"%string = None
  ∧ fs' !! "big.txt"%string = Some tnine.
Proof.
  intros fs'.
  destruct (@Encrypt_stream_failure toy_kit_checked tpass tfs_big "big.txt"
              "good.pem" tpass tnine [x01] twrapped true)
    as (Hrc4 & Haes & Hrsa & Hgone & Hkept).
  - vm_compute. discriminate.
  - vm_compute; reflexivity.
  - split; [|split; [|split; [|split]]].
    + eapply Hrc4. vm_compute. reflexivity.
    + eapply Haes. vm_compute. reflexivity.
    + eapply Hrsa; vm_compute; reflexivity.
    + exact Hgone.
    + exact Hkept.
Defined.

Lemma Decrypt_stream_failure_witness :
  @Kit.AESFileDecrypt toy_kit_checked tfs_sealed "ca.skt" tpass true
  = (Some ErrAuth, base.delete "ca"%string tfs_sealed)
  ∧ @Kit.RC4FileDecrypt toy_kit_checked tfs_sealed "c.skt" tpass true
    = (Some ErrAuth, base.delete "c"%string tfs_sealed)
  ∧ @Kit.RSAFileDecrypt toy_kit_checked tfs_sealed "b.skt" "good.pem" true
    = Ret (Some ErrAuth, base.delete "b"%string tfs_sealed)
  ∧ base.delete "b"%string tfs_sealed !! "b"%string = None.
Proof.
  split; [|split; [|split]].
  - eapply (proj1 (@Decrypt_stream_failure toy_kit_checked tfs_sealed "ca.skt"
                     "good.pem" tpass [x01] true eq_refl eq_refl)
              thello ErrAuth);
      vm_compute; reflexivity.
  - eapply (proj1 (proj2 (@Decrypt_stream_failure toy_kit_checked tfs_sealed
                            "c.skt" "good.pem" tpass [x01] true
                            eq_refl eq_refl))
              (toy_sha256 tpass ++ thello) ErrAuth);
      vm_compute; reflexivity.
  - eapply (proj1 (proj2 (proj2 (@Decrypt_stream_failure toy_kit_checked
                                   tfs_sealed "b.skt" "good.pem" tpass [x01]
                                   true eq_refl eq_refl)))
              [x01; x02; x03] thello tunwrapped ErrAuth);
      try (vm_compute; reflexivity).
    vm_compute. discriminate.
  - apply (proj2 (proj2 (proj2 (@Decrypt_stream_failure toy_kit_checked
                                  tfs_sealed "b.skt" "good.pem" tpass [x01]
                                  true eq_refl eq_refl)))).
Defined.

Lemma RSAFileDecrypt_length_panics_witness :
  Kit.RSAFileDecrypt tfs_huge "h.skt" "good.pem" false
  = Panic Kit.makeslice_len
  ∧ ∃ src dest fs',
      Kit.beforeDecrypt tfs_huge "h.skt" Kit.SKTRSAVersion
      = inr (src, dest, fs')
      ∧ fs' !! dest = Some [].
Proof.
  apply (RSAFileDecrypt_length_panics tfs_huge "h.skt" "good.pem" false
           [x01] (x80 :: replicate 7 x00) thello).
  - reflexivity.
  - reflexivity.
  - vm_compute; reflexivity.
  - vm_compute; reflexivity.
  - reflexivity.
  - vm_compute. discriminate.
Defined.

Lemma Decrypt_no_destination_witness :
  Kit.RC4FileDecrypt tfs_dot "r/.skt" tpass false = (Some ErrIsDir, tfs_dot)
  ∧ Kit.AESFileDecrypt tfs_dot ".skt" tpass false
    = (Some ErrNotExist, tfs_dot)
  ∧ Kit.RSAFileDecrypt tfs_dot "k/..skt" "good.pem" false
    = Ret (Some ErrIsDir, tfs_dot).
Proof.
  split; [|split].
  - apply (proj1 (Decrypt_no_destination tfs_dot "r/.skt" "good.pem"
                    tpass [x01] false eq_refl eq_refl)
             thello).
    vm_compute; reflexivity.
  - apply (proj1 (proj2 (Decrypt_no_destination tfs_dot ".skt" "good.pem"
                           tpass [x01] false eq_refl eq_refl))
             thello).
    vm_compute; reflexivity.
  - apply (proj2 (proj2 (Decrypt_no_destination tfs_dot "k/..skt" "good.pem"
                           tpass [x01] false eq_refl eq_refl))
             thello);
      vm_compute; reflexivity.
Defined.

Lemma Encrypt_success_witness :
  let dest := ("a.txt" +:+ Kit.sktExt)%string in
  (∃ fs', Kit.AESFileEncrypt tfs "a.txt" tpass true = (None, fs')
          ∧ fs' !! dest = Some (w_data tenc_aes.2)
          ∧ fs' !! "a.txt" = if true then None else Some thello)
  ∧ (∃ fs', Kit.RC4FileEncrypt tfs "a.txt" tpass true = (None, fs')
            ∧ fs' !! dest = Some (w_data tenc_rc4.2)
            ∧ fs' !! "a.txt" = if true then None else Some thello).
Proof.
  apply (Encrypt_success tfs "a.txt" tpass thello true
           tenc_aes.1.2 tenc_rc4.1.2 tenc_aes.2 tenc_rc4.2).
  - discriminate.
  - vm_compute; reflexivity.
  - vm_compute; reflexivity.
  - vm_compute; reflexivity.
Defined.

Lemma RSAFileEncrypt_container_witness :
  Kit.RSAFileEncrypt tpass tfs_more "a.txt" "good.pem" false
  = (None,
     Kit.deleteFile (<[("a.txt" +:+ Kit.sktExt)%string := w_data tenc_rsa.2]>
                       tfs_more) "a.txt" false).
Proof.
  apply (RSAFileEncrypt_container tpass tfs_more "a.txt" "good.pem" false
           thello [x01] twrapped tenc_rsa.1.2 tenc_rsa.2).
  - discriminate.
  - vm_compute; reflexivity.
  - vm_compute; reflexivity.
  - vm_compute; reflexivity.
  - vm_compute; reflexivity.
Defined.

Lemma RSAFileDecrypt_parses_container_witness :
  let dest := TrimSuffix "b.skt" Kit.sktExt in
  Kit.RSAFileDecrypt tfs_more "b.skt" "good.pem" false
  = Ret match Kit.RSADecrypt [x01; x02; x03] [x01] with
        | inl e => (Some e, <[dest := []]> tfs_more)
        | inr passphrase =>
            let '(err, _, w) :=
              Kit.StreamDec (bytes_reader thello) (mkWriter [] None) passphrase
                            Kit.aesAlgo in
            match err with
            | Some _ => (err, base.delete dest tfs_more)
            | None => (None, Kit.deleteFile (<[dest := w_data w]> tfs_more)
                                            "b.skt" false)
            end
        end.
Proof.
  apply (RSAFileDecrypt_parses_container tfs_more "b.skt" "good.pem" false
           [x01] [x01; x02; x03] thello).
  - reflexivity.
  - reflexivity.
  - vm_compute; reflexivity.
  - vm_compute. discriminate.
  - vm_compute; reflexivity.
Defined.

Lemma Recover_short_entry_panics_witness :
  Kit.Recover tfs tsource tpass tdb_short = Panic slice_bounds.
Proof.
  apply (Recover_short_entry_panics tfs tsource tpass tdb_short "x" [x78]).
  - vm_compute; reflexivity.
  - vm_compute; reflexivity.
  - reflexivity.
  - vm_compute; lia.
Defined.


Lemma Rename_Recover_round_trip_witness :
  let id := (Kit.RnmVersion +:+ trid)%string in
  let moved := ("dir/" +:+ id)%string in
  ∃ fs1 db1,
    @Rnm.Rename toy_kit_salted thello trid tfs_notes ("dir/" +:+ tname)
                tpass ∅ = (None, fs1, db1)
    ∧ fs1 !! ("dir/" +:+ tname)%string = None ∧ fs1 !! moved = Some thello
    ∧ db1 !! id
      = Some (@Kit.base64_EncodeToString toy_kit_salted (tbox ++ tsalt))
    ∧ @Rnm.Rename toy_kit_salted [] "zz" fs1 moved tpass db1
      = (None, fs1, db1)
    ∧ @Kit.Recover toy_kit_salted fs1 moved tpass db1 = Ret (None, tfs_notes, ∅).
Proof.
  apply (@Rename_Recover_round_trip toy_kit_salted thello [] trid "zz" "dir/"
           tname tfs_notes tpass thello ∅ tdk tsalt tsalt tbox).
  - reflexivity.
  - reflexivity.
  - reflexivity.
  - reflexivity.
  - vm_compute; reflexivity.
  - vm_compute; reflexivity.
  - vm_compute; reflexivity.
  - vm_compute; reflexivity.
  - reflexivity.
  - vm_compute; reflexivity.
  - vm_compute; reflexivity.
  - vm_compute; reflexivity.
  - vm_compute; reflexivity.
Defined.
